(** * Floating overlay and link preview: position, animation and cache logic

  A shallow embedding of the executable logic of the repository:

  - [Popup]          : [calculatePosition] and [getResponsiveSize] of the
                       Popup component (Popup.tsx);
  - [PositionEngine] : the draft position engine of the design documents
                       (popup-component-design.md and
                       popup-component-implementation.md);
  - [AnimationManager] : the four-state animation sequencer of the design
                       documents, with its [waitForAnimation] promise;
  - [LinkPreviewer]  : the handlers, timers and URL caches of
                       LinkPreviewer.tsx.

  JavaScript numbers are idealised as exact rationals ([Q]): every
  constant of the source (halves, 0.8, 0.6, pixel counts) is a rational,
  and the concrete inputs evaluated below are small integers on which
  double arithmetic is exact.  Comparison of numbers is [==] on [Q]. *)

From Stdlib Require Import QArith Lqa Bool String List.
From stdpp Require Import gmap strings.
Import ListNotations.

Open Scope Q_scope.

(** ** JavaScript number helpers *)

Module JS.

(** [a < b], [a > b] and [a <= b] on numbers, as booleans. *)
Definition lt (a b : Q) : bool := negb (Qle_bool b a).
Definition gt (a b : Q) : bool := lt b a.
Definition le (a b : Q) : bool := Qle_bool a b.

(** [a === b] on numbers. *)
Definition eq (a b : Q) : bool := Qeq_bool a b.

(** [Math.min] and [Math.max] of two numbers. *)
Definition min (a b : Q) : Q := if le a b then a else b.
Definition max (a b : Q) : Q := if le a b then b else a.

(** Truthiness of an optional boolean property ([undefined] is falsy). *)
Definition truthy (b : option bool) : bool :=
  match b with Some true => true | _ => false end.

(** [v || d] for an optional number: [undefined] and [0] are falsy. *)
Definition or_default (v : option Q) (d : Q) : Q :=
  match v with
  | Some n => if eq n 0 then d else n
  | None => d
  end.

End JS.

(** ** Types shared by the position code (types.ts) *)

Module Placement.
(** The placement labels: the six values a caller may request and the
    label [custom] that [calculatePosition] gives to a point target. *)
Inductive t := top | bottom | left | right | center | auto | custom.

Definition eqb (a b : t) : bool :=
  match a, b with
  | top, top | bottom, bottom | left, left | right, right
  | center, center | auto, auto | custom, custom => true
  | _, _ => false
  end.
End Placement.

Module Variant.
Inductive t := default | tooltip | modal | dropdown | custom.
End Variant.

Module DOMRect.
(** A bounding box in viewport coordinates, as [getBoundingClientRect]
    returns it. *)
Record t := { left : Q; top : Q; right : Q; bottom : Q; width : Q; height : Q }.

(** The rectangle of a real element: non-negative size, [right] and
    [bottom] determined by the other fields. *)
Definition wf (r : t) : Prop :=
  0 <= width r /\ 0 <= height r /\
  right r == left r + width r /\ bottom r == top r + height r.
End DOMRect.

Module window.
Record t := { innerWidth : Q; innerHeight : Q }.
End window.

Module Position.
(** [interface Position]: [placement] and [adjusted] are optional. *)
Record t := { x : Q; y : Q; placement : option Placement.t; adjusted : option bool }.
End Position.

(** [target?: HTMLElement | { x: number; y: number }].  An element is
    represented by the rectangle [getBoundingClientRect] reads from it. *)
Inductive Target :=
| Element (rect : DOMRect.t)
| Point (x y : Q).

(** The clamping invariant: the popup of the given size placed at [pos]
    lies inside the viewport. *)
Definition within_viewport (popupWidth popupHeight : Q) (win : window.t)
    (pos : Position.t) : Prop :=
  0 <= Position.x pos /\ Position.x pos + popupWidth <= window.innerWidth win /\
  0 <= Position.y pos /\ Position.y pos + popupHeight <= window.innerHeight win.

(** ** Popup.tsx *)

Module Popup.

Module props.
(** The properties [calculatePosition] reads. *)
Record t := {
  target : option Target;
  placement : option Placement.t;
  offset : option (Q * Q);
  autoAdjust : option bool;
  flip : option bool;
  variant : option Variant.t
}.
End props.

Module Size.
Record t := { width : Q; height : Q; margin : Q }.
End Size.

(** [getResponsiveSize]: popup size and margin from the screen size. *)
Definition getResponsiveSize (win : window.t) : Size.t :=
  let screenWidth := window.innerWidth win in
  let screenHeight := window.innerHeight win in
  let isMobile := JS.le screenWidth 768 in
  let isTablet := JS.le screenWidth 1024 in
  if isMobile then
    {| Size.width := JS.min (screenWidth - 32) 320;
       Size.height := JS.min (screenHeight - 32) 240;
       Size.margin := 16 |}
  else if isTablet then
    {| Size.width := JS.min (screenWidth * 0.8) 400;
       Size.height := JS.min (screenHeight * 0.6) 300;
       Size.margin := 20 |}
  else
    {| Size.width := 400; Size.height := 200; Size.margin := 10 |}.

(** The guard of the flip block:
    [(props.variant === 'tooltip' || props.variant === 'dropdown') && props.flip]. *)
Definition flipGuard (p : props.t) : bool :=
  match props.variant p with
  | Some Variant.tooltip | Some Variant.dropdown => JS.truthy (props.flip p)
  | _ => false
  end.

(** [calculatePosition].  Note that [props.autoAdjust] is never read:
    an element target is always clamped, a point target never. *)
Definition calculatePosition (p : props.t) (win : window.t) : Position.t :=
  match props.target p with
  | None =>
      let sz := getResponsiveSize win in
      {| Position.x := window.innerWidth win / 2 - Size.width sz / 2;
         Position.y := window.innerHeight win / 2 - Size.height sz / 2;
         Position.placement := Some Placement.center;
         Position.adjusted := Some false |}
  | Some (Point px py) =>
      {| Position.x := px;
         Position.y := py;
         Position.placement := Some Placement.custom;
         Position.adjusted := Some false |}
  | Some (Element targetRect) =>
      let placement := match props.placement p with Some pl => pl | None => Placement.bottom end in
      let offset := match props.offset p with Some o => o | None => (0, 0) end in
      let sz := getResponsiveSize win in
      let popupWidth := Size.width sz in
      let popupHeight := Size.height sz in
      let margin := Size.margin sz in
      let adjusted := false in
      let '(x, y) :=
        match placement with
        | Placement.top =>
            (DOMRect.left targetRect + DOMRect.width targetRect / 2 - popupWidth / 2 + fst offset,
             DOMRect.top targetRect - popupHeight + snd offset)
        | Placement.bottom =>
            (DOMRect.left targetRect + DOMRect.width targetRect / 2 - popupWidth / 2 + fst offset,
             DOMRect.bottom targetRect + snd offset)
        | Placement.left =>
            (DOMRect.left targetRect - popupWidth + fst offset,
             DOMRect.top targetRect + DOMRect.height targetRect / 2 - popupHeight / 2 + snd offset)
        | Placement.right =>
            (DOMRect.right targetRect + fst offset,
             DOMRect.top targetRect + DOMRect.height targetRect / 2 - popupHeight / 2 + snd offset)
        | Placement.center =>
            (window.innerWidth win / 2 - popupWidth / 2 + fst offset,
             window.innerHeight win / 2 - popupHeight / 2 + snd offset)
        | _ =>
            (DOMRect.left targetRect + DOMRect.width targetRect / 2 - popupWidth / 2 + fst offset,
             DOMRect.bottom targetRect + snd offset)
        end in
      let originalX := x in
      let originalY := y in
      let '(x, adjusted) :=
        if JS.lt x margin then (margin, true)
        else if JS.gt (x + popupWidth) (window.innerWidth win - margin)
             then (window.innerWidth win - popupWidth - margin, true)
             else (x, adjusted) in
      let '(y, adjusted) :=
        if JS.lt y margin then (margin, true)
        else if JS.gt (y + popupHeight) (window.innerHeight win - margin)
             then (window.innerHeight win - popupHeight - margin, true)
             else (y, adjusted) in
      let '(x, y, adjusted) :=
        if flipGuard p then
          if Placement.eqb placement Placement.top && JS.lt originalY margin
          then (x, DOMRect.bottom targetRect + snd offset, true)
          else if Placement.eqb placement Placement.bottom
                  && JS.gt (originalY + popupHeight) (window.innerHeight win - margin)
          then (x, DOMRect.top targetRect - popupHeight + snd offset, true)
          else if Placement.eqb placement Placement.left && JS.lt originalX margin
          then (DOMRect.right targetRect + fst offset, y, true)
          else if Placement.eqb placement Placement.right
                  && JS.gt (originalX + popupWidth) (window.innerWidth win - margin)
          then (DOMRect.left targetRect - popupWidth + fst offset, y, true)
          else (x, y, adjusted)
        else (x, y, adjusted) in
      {| Position.x := x; Position.y := y;
         Position.placement := Some placement;
         Position.adjusted := Some adjusted |}
  end.

(** [props.offset || [0, 0]]. *)
Definition offsetOf (p : props.t) : Q * Q :=
  match props.offset p with Some o => o | None => (0, 0) end.

(** The y coordinate before clamping and flipping for a [top] placement
    (the "natural" y). *)
Definition naturalTopY (p : props.t) (win : window.t) (targetRect : DOMRect.t) : Q :=
  DOMRect.top targetRect - Size.height (getResponsiveSize win) + snd (offsetOf p).

(** The space around an anchor in each of the four directions, as the
    design documents measure it for the [auto] placement. *)
Definition availableSpace (win : window.t) (targetRect : DOMRect.t) (pl : Placement.t) : Q :=
  match pl with
  | Placement.top => DOMRect.top targetRect
  | Placement.bottom => window.innerHeight win - DOMRect.bottom targetRect
  | Placement.left => DOMRect.left targetRect
  | Placement.right => window.innerWidth win - DOMRect.right targetRect
  | _ => 0
  end.

(** The same properties with placement [bottom] and the flip switched
    off. *)
Definition bottomNoFlip (p : props.t) : props.t :=
  {| props.target := props.target p; props.placement := Some Placement.bottom;
     props.offset := props.offset p; props.autoAdjust := props.autoAdjust p;
     props.flip := None; props.variant := props.variant p |}.

(** The coordinates the placement switch of [calculatePosition] computes
    for an element anchor, before the boundary tests and the flip. *)
Definition naturalPosition (p : props.t) (win : window.t) (targetRect : DOMRect.t) : Q * Q :=
  let placement := match props.placement p with Some pl => pl | None => Placement.bottom end in
  let offset := offsetOf p in
  let popupWidth := Size.width (getResponsiveSize win) in
  let popupHeight := Size.height (getResponsiveSize win) in
  match placement with
  | Placement.top =>
      (DOMRect.left targetRect + DOMRect.width targetRect / 2 - popupWidth / 2 + fst offset,
       DOMRect.top targetRect - popupHeight + snd offset)
  | Placement.bottom =>
      (DOMRect.left targetRect + DOMRect.width targetRect / 2 - popupWidth / 2 + fst offset,
       DOMRect.bottom targetRect + snd offset)
  | Placement.left =>
      (DOMRect.left targetRect - popupWidth + fst offset,
       DOMRect.top targetRect + DOMRect.height targetRect / 2 - popupHeight / 2 + snd offset)
  | Placement.right =>
      (DOMRect.right targetRect + fst offset,
       DOMRect.top targetRect + DOMRect.height targetRect / 2 - popupHeight / 2 + snd offset)
  | Placement.center =>
      (window.innerWidth win / 2 - popupWidth / 2 + fst offset,
       window.innerHeight win / 2 - popupHeight / 2 + snd offset)
  | _ =>
      (DOMRect.left targetRect + DOMRect.width targetRect / 2 - popupWidth / 2 + fst offset,
       DOMRect.bottom targetRect + snd offset)
  end.

End Popup.

(** ** Popup.tsx: what is rendered *)

Module PopupView.

(** A CSS property value: a string, a number, or the template string
    [`${q}px`] of a number. *)
Inductive value :=
| Text (s : string)
| Num (q : Q)
| Px (q : Q).

(** Truthiness of a style entry ([undefined], the empty string and 0 are
    falsy). *)
Definition truthy (v : option value) : bool :=
  match v with
  | None => false
  | Some (Text s) => match s with EmptyString => false | _ => true end
  | Some (Num q) => negb (JS.eq q 0)
  | Some (Px _) => true
  end.

Module props.
(** The properties the rendering reads; [style] is a string or an object. *)
Record t := {
  show : bool;
  destroyOnHide : option bool;
  strategy : option string;
  zIndex : option Q;
  style : option (string + gmap string value)
}.
End props.

(** The signals of the component. *)
Record t := { position : Position.t; isReady : bool }.

(** The effect on [props.show]: a shown popup gets its position and is
    marked ready, a hidden one is marked not ready. *)
Definition onShowChange (pp : Popup.props.t) (win : window.t) (show : bool) (st : t) : t :=
  if show then {| position := Popup.calculatePosition pp win; isReady := true |}
  else {| position := position st; isReady := false |}.

(** [shouldRender]: with [destroyOnHide === false] always, else when
    shown. *)
Definition shouldRender (p : props.t) : bool :=
  match props.destroyOnHide p with
  | Some false => true
  | _ => props.show p
  end.

(** The test [(props.destroyOnHide === false && !props.show) || !isReady()]. *)
Definition concealed (p : props.t) (st : t) : bool :=
  (match props.destroyOnHide p with Some false => true | _ => false end
   && negb (props.show p))
  || negb (isReady st).

(** [{ ...a, ...b }]: the entries of [b] win. *)
Definition spread (a b : gmap string value) : gmap string value := b ∪ a.

(** [...(v && { key: v })]: a falsy [v] spreads nothing. *)
Definition spreadIf (key : string) (v : option value) : gmap string value :=
  match v with
  | Some x => if truthy v then {[ key := x ]} else ∅
  | None => ∅
  end.

Definition baseStyle (p : props.t) (win : window.t) (st : t) : gmap string value :=
  let sz := Popup.getResponsiveSize win in
  list_to_map
    [("position", Text (match props.strategy p with
                        | Some s => match s with EmptyString => "fixed" | _ => s end
                        | None => "fixed"
                        end));
     ("left", Px (Position.x (position st)));
     ("top", Px (Position.y (position st)));
     ("width", Px (Popup.Size.width sz));
     ("height", Px (Popup.Size.height sz));
     ("z-index", Num (JS.or_default (props.zIndex p) 50));
     ("max-width", Text "calc(100vw - 32px)");
     ("max-height", Text "calc(100vh - 32px)")].

Definition displayStyle (p : props.t) (st : t) : gmap string value :=
  if concealed p st then
    list_to_map [("visibility", Text "hidden"); ("opacity", Num 0);
                 ("pointer-events", Text "none")]
  else ∅.

(** [computedStyle]: a string style is passed on (with the hiding rules
    appended when concealed), an object style is merged over the base
    style. *)
Definition computedStyle (p : props.t) (win : window.t) (st : t)
    : string + gmap string value :=
  match props.style p with
  | Some (inl str) =>
      if concealed p st then
        inl (str ++ "; visibility: hidden !important; opacity: 0 !important; pointer-events: none !important;")%string
      else inl str
  | Some (inr customStyle) =>
      inr (spread (spread (spread (spread (baseStyle p win st) customStyle)
                                  (spreadIf "width" (customStyle !! "width")))
                          (spreadIf "height" (customStyle !! "height")))
                  (displayStyle p st))
  | None =>
      inr (spread (spread (spread (spread (baseStyle p win st) ∅)
                                  (spreadIf "width" None))
                          (spreadIf "height" None))
                  (displayStyle p st))
  end.

End PopupView.

(** ** The draft position engine of the design documents *)

Module PositionEngine.

Module options.
(** The position options the engine reads. *)
Record t := {
  target : option Target;
  placement : option Placement.t;
  offset : option (Q * Q);
  autoAdjust : option bool;
  flip : option bool
}.
End options.

Module Viewport.
Record t := { width : Q; height : Q; scrollX : Q; scrollY : Q }.
End Viewport.

(** What the engine reads from the browser: the window, its scroll
    offsets and the measured rectangle of the popup element. *)
Module Dom.
Record t := { win : window.t; scrollX : Q; scrollY : Q; popupRect : DOMRect.t }.
End Dom.

(** [getTargetRect]: no target gives the zero-size rectangle at the centre
    of the window, a point the zero-size rectangle at that point. *)
Definition getTargetRect (o : options.t) (d : Dom.t) : DOMRect.t :=
  match options.target o with
  | None =>
      let cx := window.innerWidth (Dom.win d) / 2 in
      let cy := window.innerHeight (Dom.win d) / 2 in
      {| DOMRect.left := cx; DOMRect.top := cy; DOMRect.right := cx;
         DOMRect.bottom := cy; DOMRect.width := 0; DOMRect.height := 0 |}
  | Some (Point x y) =>
      {| DOMRect.left := x; DOMRect.top := y; DOMRect.right := x;
         DOMRect.bottom := y; DOMRect.width := 0; DOMRect.height := 0 |}
  | Some (Element rect) => rect
  end.

Definition getPopupRect (d : Dom.t) : DOMRect.t := Dom.popupRect d.

Definition getViewport (d : Dom.t) : Viewport.t :=
  {| Viewport.width := window.innerWidth (Dom.win d);
     Viewport.height := window.innerHeight (Dom.win d);
     Viewport.scrollX := Dom.scrollX d;
     Viewport.scrollY := Dom.scrollY d |}.

(** [calculateAutoPosition], with the method it calls back,
    [calculateInitialPosition], as the parameter [self]: all four branches
    make the same call, with the same arguments. *)
Definition calculateAutoPosition
    (self : DOMRect.t -> DOMRect.t -> option Position.t)
    (d : Dom.t) (targetRect popupRect : DOMRect.t) : option Position.t :=
  let viewport := getViewport d in
  let space_top := DOMRect.top targetRect in
  let space_bottom := Viewport.height viewport - DOMRect.bottom targetRect in
  let space_left := DOMRect.left targetRect in
  let space_right := Viewport.width viewport - DOMRect.right targetRect in
  let maxSpace := JS.max (JS.max (JS.max space_top space_bottom) space_left) space_right in
  if JS.eq maxSpace space_bottom then self targetRect popupRect
  else if JS.eq maxSpace space_top then self targetRect popupRect
  else if JS.eq maxSpace space_right then self targetRect popupRect
  else self targetRect popupRect.

(** [calculateInitialPosition].  It and [calculateAutoPosition] call each
    other, so the recursion is bounded by [fuel]: [None] means the call
    depth was exhausted. *)
Fixpoint calculateInitialPosition (fuel : nat) (o : options.t) (d : Dom.t)
    (targetRect popupRect : DOMRect.t) : option Position.t :=
  match fuel with
  | O => None
  | S fuel' =>
      let offset := match options.offset o with Some p => p | None => (0, 0) end in
      match options.placement o with
      | Some Placement.top =>
          Some {| Position.x := DOMRect.left targetRect + DOMRect.width targetRect / 2
                                - DOMRect.width popupRect / 2 + fst offset;
                  Position.y := DOMRect.top targetRect - DOMRect.height popupRect + snd offset;
                  Position.placement := Some Placement.top;
                  Position.adjusted := None |}
      | Some Placement.bottom =>
          Some {| Position.x := DOMRect.left targetRect + DOMRect.width targetRect / 2
                                - DOMRect.width popupRect / 2 + fst offset;
                  Position.y := DOMRect.bottom targetRect + snd offset;
                  Position.placement := Some Placement.bottom;
                  Position.adjusted := None |}
      | Some Placement.left =>
          Some {| Position.x := DOMRect.left targetRect - DOMRect.width popupRect + fst offset;
                  Position.y := DOMRect.top targetRect + DOMRect.height targetRect / 2
                                - DOMRect.height popupRect / 2 + snd offset;
                  Position.placement := Some Placement.left;
                  Position.adjusted := None |}
      | Some Placement.right =>
          Some {| Position.x := DOMRect.right targetRect + fst offset;
                  Position.y := DOMRect.top targetRect + DOMRect.height targetRect / 2
                                - DOMRect.height popupRect / 2 + snd offset;
                  Position.placement := Some Placement.right;
                  Position.adjusted := None |}
      | Some Placement.center =>
          Some {| Position.x := window.innerWidth (Dom.win d) / 2
                                - DOMRect.width popupRect / 2 + fst offset;
                  Position.y := window.innerHeight (Dom.win d) / 2
                                - DOMRect.height popupRect / 2 + snd offset;
                  Position.placement := Some Placement.center;
                  Position.adjusted := None |}
      | _ =>
          calculateAutoPosition (calculateInitialPosition fuel' o d) d targetRect popupRect
      end
  end.

(** [adjustForBoundaries]: the tests are against 0 and the viewport edge,
    the corrected coordinate keeps a distance of 10. *)
Definition adjustForBoundaries (position : Position.t) (viewport : Viewport.t)
    (popupRect : DOMRect.t) : Position.t :=
  let adjusted := false in
  let '(x, adjusted) :=
    if JS.lt (Position.x position) 0 then (10, true)
    else if JS.gt (Position.x position + DOMRect.width popupRect) (Viewport.width viewport)
         then (Viewport.width viewport - DOMRect.width popupRect - 10, true)
         else (Position.x position, adjusted) in
  let '(y, adjusted) :=
    if JS.lt (Position.y position) 0 then (10, true)
    else if JS.gt (Position.y position + DOMRect.height popupRect) (Viewport.height viewport)
         then (Viewport.height viewport - DOMRect.height popupRect - 10, true)
         else (Position.y position, adjusted) in
  {| Position.x := x; Position.y := y;
     Position.placement := Position.placement position;
     Position.adjusted := Some adjusted |}.

(** [handleFlip]: both tests read the placement the position had on
    entry. *)
Definition handleFlip (position : Position.t) (targetRect popupRect : DOMRect.t)
    (viewport : Viewport.t) : Position.t :=
  let placement := Position.placement position in
  let placed pl := match placement with Some q => Placement.eqb q pl | None => false end in
  let position :=
    if placed Placement.left && JS.lt (Position.x position) 0 then
      {| Position.x := DOMRect.right targetRect; Position.y := Position.y position;
         Position.placement := Some Placement.right; Position.adjusted := Some true |}
    else if placed Placement.right
            && JS.gt (Position.x position + DOMRect.width popupRect) (Viewport.width viewport) then
      {| Position.x := DOMRect.left targetRect - DOMRect.width popupRect;
         Position.y := Position.y position;
         Position.placement := Some Placement.left; Position.adjusted := Some true |}
    else position in
  if placed Placement.top && JS.lt (Position.y position) 0 then
    {| Position.x := Position.x position; Position.y := DOMRect.bottom targetRect;
       Position.placement := Some Placement.bottom; Position.adjusted := Some true |}
  else if placed Placement.bottom
          && JS.gt (Position.y position + DOMRect.height popupRect) (Viewport.height viewport) then
    {| Position.x := Position.x position;
       Position.y := DOMRect.top targetRect - DOMRect.height popupRect;
       Position.placement := Some Placement.top; Position.adjusted := Some true |}
  else position.

(** [applyOffset]: the offset is added once more to the result. *)
Definition applyOffset (o : options.t) (position : Position.t) : Position.t :=
  let offset := match options.offset o with Some p => p | None => (0, 0) end in
  {| Position.x := Position.x position + fst offset;
     Position.y := Position.y position + snd offset;
     Position.placement := Position.placement position;
     Position.adjusted := Position.adjusted position |}.

(** [calculatePosition] of the engine. *)
Definition calculatePosition (fuel : nat) (o : options.t) (d : Dom.t) : option Position.t :=
  let targetRect := getTargetRect o d in
  let popupRect := getPopupRect d in
  let viewport := getViewport d in
  match calculateInitialPosition fuel o d targetRect popupRect with
  | None => None
  | Some position =>
      let position :=
        if JS.truthy (options.autoAdjust o)
        then adjustForBoundaries position viewport popupRect else position in
      let position :=
        if JS.truthy (options.flip o)
        then handleFlip position targetRect popupRect viewport else position in
      Some (applyOffset o position)
  end.

(** The placements [calculateInitialPosition] has a case for. *)
Definition explicit (pl : option Placement.t) : bool :=
  match pl with
  | Some Placement.top | Some Placement.bottom | Some Placement.left
  | Some Placement.right | Some Placement.center => true
  | _ => false
  end.

(** [this.options.offset || [0, 0]], and the same options without an
    offset. *)
Definition offsetOf (o : options.t) : Q * Q :=
  match options.offset o with Some p => p | None => (0, 0) end.

Definition noOffset (o : options.t) : options.t :=
  {| options.target := options.target o; options.placement := options.placement o;
     options.offset := None; options.autoAdjust := options.autoAdjust o;
     options.flip := options.flip o |}.

End PositionEngine.

(** ** The animation manager of the design documents *)

Module AnimationManager.

Inductive AnimationState := entering | entered | exiting | exited.

Module Preset.
(** The four class strings of a preset; the empty string stands for an
    absent (falsy) entry. *)
Record t := { enter : string; enterActive : string; exit : string; exitActive : string }.
End Preset.

Module options.
(** [animationNone] is [animation === 'none']; [presetAnimation] is the
    value [getPresetAnimation(animation, direction)] returns: one of its
    tables of class strings, with the duration spliced in.  The class
    strings only go to the element's class list. *)
Record t := {
  animationClass : option Preset.t;
  animationNone : bool;
  presetAnimation : Preset.t;
  duration : option Q
}.
End options.

(** [getAnimationPreset]: a custom class set wins, then ['none'], then the
    named preset. *)
Definition getAnimationPreset (o : options.t) : Preset.t :=
  match options.animationClass o with
  | Some c => c
  | None =>
      if options.animationNone o
      then {| Preset.enter := EmptyString; Preset.enterActive := EmptyString;
              Preset.exit := EmptyString; Preset.exitActive := EmptyString |}
      else options.presetAnimation o
  end.

(** What a call does to the element, in order. *)
Inductive effect :=
| ClassListAdd (classes : string)
| ClassListRemove (classes : string)
| ReadOffsetHeight.

(** The statement that follows [await this.waitForAnimation()]. *)
Inductive continuation := SetEntered | SetExited.

Module Wait.
(** One promise made by [waitForAnimation]: the caller's continuation,
    whether [resolve] has run, whether [handleAnimationEnd] is still
    registered on the element, and the fallback timer (its delay, and
    whether it has yet to fire). *)
Record t := {
  cont : continuation;
  resolved : bool;
  listening : bool;
  timerPending : bool;
  delay : Q
}.
End Wait.

Record t := {
  opts : options.t;
  animationState : AnimationState;
  effects : list effect;
  waits : list Wait.t
}.

(** A new manager: [animationState = 'exited']. *)
Definition create (o : options.t) : t :=
  {| opts := o; animationState := exited; effects := []; waits := [] |}.

Definition nonEmpty (s : string) : bool :=
  match s with EmptyString => false | _ => true end.

Definition emit (e : list effect) (m : t) : t :=
  {| opts := opts m; animationState := animationState m;
     effects := effects m ++ e; waits := waits m |}.

Definition setState (st : AnimationState) (m : t) : t :=
  {| opts := opts m; animationState := st; effects := effects m; waits := waits m |}.

Definition applyEnterClasses (m : t) : t :=
  let preset := getAnimationPreset (opts m) in
  if nonEmpty (Preset.enter preset) then emit [ClassListAdd (Preset.enter preset)] m else m.

Definition applyEnterActiveClasses (m : t) : t :=
  let preset := getAnimationPreset (opts m) in
  if nonEmpty (Preset.enterActive preset)
  then emit [ClassListAdd (Preset.enterActive preset)] m else m.

Definition applyExitClasses (m : t) : t :=
  let preset := getAnimationPreset (opts m) in
  let m := if nonEmpty (Preset.enterActive preset)
           then emit [ClassListRemove (Preset.enterActive preset)] m else m in
  if nonEmpty (Preset.exit preset) then emit [ClassListAdd (Preset.exit preset)] m else m.

Definition applyExitActiveClasses (m : t) : t :=
  let preset := getAnimationPreset (opts m) in
  if nonEmpty (Preset.exitActive preset)
  then emit [ClassListAdd (Preset.exitActive preset)] m else m.

(** [waitForAnimation] up to the point where it returns the promise: both
    listeners are registered and the fallback timer is set to
    [this.options.duration || 300]. *)
Definition waitForAnimation (k : continuation) (m : t) : t :=
  {| opts := opts m; animationState := animationState m; effects := effects m;
     waits := waits m ++
       [{| Wait.cont := k; Wait.resolved := false; Wait.listening := true;
           Wait.timerPending := true;
           Wait.delay := JS.or_default (options.duration (opts m)) 300 |}] |}.

(** The promise the latest [waitForAnimation] made. *)
Definition latestWait (m : t) : option Wait.t := List.last (List.map Some (waits m)) None.

(** [show()] up to its [await]. *)
Definition show (m : t) : t :=
  match animationState m with
  | entering | entered => m
  | _ =>
      let m := setState entering m in
      let m := applyEnterClasses m in
      let m := emit [ReadOffsetHeight] m in
      let m := applyEnterActiveClasses m in
      waitForAnimation SetEntered m
  end.

(** [hide()] up to its [await]. *)
Definition hide (m : t) : t :=
  match animationState m with
  | exiting | exited => m
  | _ =>
      let m := setState exiting m in
      let m := applyExitClasses m in
      let m := emit [ReadOffsetHeight] m in
      let m := applyExitActiveClasses m in
      waitForAnimation SetExited m
  end.

(** The rest of [show()] or [hide()], run when its promise resolves. *)
Definition resume (k : continuation) : AnimationState :=
  match k with SetEntered => entered | SetExited => exited end.

(** [resolve()] on one promise: only the first call has an effect, and it
    runs the awaiting continuation. *)
Definition resolve (w : Wait.t) (st : AnimationState) : Wait.t * AnimationState :=
  if Wait.resolved w then (w, st)
  else ({| Wait.cont := Wait.cont w; Wait.resolved := true;
           Wait.listening := Wait.listening w;
           Wait.timerPending := Wait.timerPending w;
           Wait.delay := Wait.delay w |},
        resume (Wait.cont w)).

(** [handleAnimationEnd] of one promise: remove both listeners, resolve. *)
Definition handleAnimationEnd (w : Wait.t) (st : AnimationState) : Wait.t * AnimationState :=
  if Wait.listening w then
    resolve {| Wait.cont := Wait.cont w; Wait.resolved := Wait.resolved w;
               Wait.listening := false;
               Wait.timerPending := Wait.timerPending w;
               Wait.delay := Wait.delay w |} st
  else (w, st).

(** The fallback timer of one promise fires: [resolve] is its callback. *)
Definition timerFires (w : Wait.t) (st : AnimationState) : Wait.t * AnimationState :=
  if Wait.timerPending w then
    resolve {| Wait.cont := Wait.cont w; Wait.resolved := Wait.resolved w;
               Wait.listening := Wait.listening w;
               Wait.timerPending := false;
               Wait.delay := Wait.delay w |} st
  else (w, st).

(** A native [transitionend] or [animationend] event on the element calls
    every registered listener, in registration order. *)
Fixpoint dispatchEnd (ws : list Wait.t) (st : AnimationState) : list Wait.t * AnimationState :=
  match ws with
  | [] => ([], st)
  | w :: ws' =>
      let '(w', st') := handleAnimationEnd w st in
      let '(ws'', st'') := dispatchEnd ws' st' in
      (w' :: ws'', st'')
  end.

(** The timer of the [i]-th promise fires. *)
Fixpoint fireTimer (i : nat) (ws : list Wait.t) (st : AnimationState) {struct ws}
    : list Wait.t * AnimationState :=
  match ws, i with
  | [], _ => ([], st)
  | w :: ws', O => let '(w', st') := timerFires w st in (w' :: ws', st')
  | w :: ws', S i' => let '(ws'', st') := fireTimer i' ws' st in (w :: ws'', st')
  end.

(** What can happen to a manager. *)
Inductive event :=
| CallShow
| CallHide
| NativeEnd
| TimerFires (i : nat).

Definition step (m : t) (e : event) : t :=
  match e with
  | CallShow => show m
  | CallHide => hide m
  | NativeEnd =>
      let '(ws, st) := dispatchEnd (waits m) (animationState m) in
      {| opts := opts m; animationState := st; effects := effects m; waits := ws |}
  | TimerFires i =>
      let '(ws, st) := fireTimer i (waits m) (animationState m) in
      {| opts := opts m; animationState := st; effects := effects m; waits := ws |}
  end.

Definition run (m : t) (tr : list event) : t := fold_left step tr m.


Definition isEnter (w : Wait.t) : bool :=
  match Wait.cont w with SetEntered => true | SetExited => false end.

(** The number of entrance sequences a manager has started: each one ends
    in a [waitForAnimation] whose continuation sets ['entered']. *)
Definition entrances (m : t) : nat := length (List.filter isEnter (waits m)).

(** No promise is still waiting. *)
Definition quiescent (m : t) : Prop := Forall (fun w => Wait.resolved w = true) (waits m).


(** The number of exit sequences a manager has started. *)
Definition exits (m : t) : nat :=
  length (List.filter (fun w => negb (isEnter w)) (waits m)).

(** Where a transition in progress ends. *)
Definition settle (st : AnimationState) : AnimationState :=
  match st with
  | entering | entered => entered
  | exiting | exited => exited
  end.

Definition isCall (e : event) : bool :=
  match e with CallShow | CallHide => true | _ => false end.

(** The state a manager is in while the promise with continuation [k] is
    the latest one and still waiting. *)
Definition transitional (k : continuation) : AnimationState :=
  match k with SetEntered => entering | SetExited => exiting end.

(** After calls only: every promise is still waiting with its listeners
    on, and the state is that of the latest call that passed its guard. *)
Definition inFlight (m : t) : Prop :=
  Forall (fun w => Wait.resolved w = false /\ Wait.listening w = true) (waits m) /\
  ((animationState m = exited /\ waits m = []) \/
   (exists ws w, waits m = ws ++ [w] /\ animationState m = transitional (Wait.cont w))).

End AnimationManager.

(** ** The interaction manager of the design documents *)

Module InteractionManager.

(** Where a listener is registered, and the three closures the manager
    registers. *)
Inductive target := Document | Window.
Inductive handler := HandleClick | HandleKeyDown | HandleScroll.

Module Listener.
(** One entry of the browser's listener registry; [id] is the identity of
    the closure. *)
Record t := { on : target; event : string; id : nat; handler : handler }.
End Listener.

Module options.
Record t := {
  closeOnOutsideClick : option bool;
  closeOnEscape : option bool;
  closeOnScroll : option bool
}.
End options.

(** The manager with what it touches: the browser's registry, its own
    [eventListeners] map from event name to closure, the next closure
    identity, and the number of calls of [onClose] so far. *)
Record t := {
  opts : options.t;
  registered : list Listener.t;
  eventListeners : gmap string nat;
  nextId : nat;
  closes : nat
}.

Definition create (o : options.t) : t :=
  {| opts := o; registered := []; eventListeners := ∅; nextId := O; closes := O |}.

(** [tgt.addEventListener(ev, closure)] with a new closure, followed by
    [this.eventListeners.set(ev, closure)]. *)
Definition listen (tgt : target) (ev : string) (h : handler) (m : t) : t :=
  {| opts := opts m;
     registered := registered m ++
       [{| Listener.on := tgt; Listener.event := ev; Listener.id := nextId m;
           Listener.handler := h |}];
     eventListeners := <[ev := nextId m]> (eventListeners m);
     nextId := S (nextId m);
     closes := closes m |}.

Definition setupOutsideClick (m : t) : t :=
  if negb (JS.truthy (options.closeOnOutsideClick (opts m))) then m
  else listen Document "click" HandleClick m.

Definition setupEscapeKey (m : t) : t :=
  if negb (JS.truthy (options.closeOnEscape (opts m))) then m
  else listen Document "keydown" HandleKeyDown m.

(** The scroll listener goes to [window]. *)
Definition setupScrollEvents (m : t) : t :=
  if negb (JS.truthy (options.closeOnScroll (opts m))) then m
  else listen Window "scroll" HandleScroll m.

(** [document.removeEventListener(ev, closure)]. *)
Definition removeFromDocument (ev : string) (closure : nat) (regs : list Listener.t)
    : list Listener.t :=
  List.filter
    (fun l => negb (match Listener.on l with Document => true | Window => false end
                    && String.eqb (Listener.event l) ev
                    && Nat.eqb (Listener.id l) closure))
    regs.

(** [cleanup]: every entry of the map is removed from [document], then
    the map is cleared. *)
Definition cleanup (m : t) : t :=
  {| opts := opts m;
     registered :=
       fold_right (fun entry regs => removeFromDocument (fst entry) (snd entry) regs)
                  (registered m) (map_to_list (eventListeners m));
     eventListeners := ∅;
     nextId := nextId m;
     closes := closes m |}.

(** What reaches the page. *)
Inductive domEvent :=
| Click (insidePopup : bool)
| KeyDown (key : string)
| Scroll.

(** Whether a closure, called with the event, calls [onClose]. *)
Definition closesOn (h : handler) (e : domEvent) : bool :=
  match h, e with
  | HandleClick, Click insidePopup => negb insidePopup
  | HandleKeyDown, KeyDown key => String.eqb key "Escape"
  | HandleScroll, Scroll => true
  | _, _ => false
  end.

(** The event name and the targets an event is delivered to: a click and
    a key press reach [document], a scroll of the page reaches [window]. *)
Definition delivered (l : Listener.t) (e : domEvent) : bool :=
  match e, Listener.on l with
  | Click _, Document => String.eqb (Listener.event l) "click"
  | KeyDown _, Document => String.eqb (Listener.event l) "keydown"
  | Scroll, Window => String.eqb (Listener.event l) "scroll"
  | _, _ => false
  end.

Definition dispatch (e : domEvent) (m : t) : t :=
  {| opts := opts m; registered := registered m; eventListeners := eventListeners m;
     nextId := nextId m;
     closes := closes m +
       length (List.filter (fun l => delivered l e && closesOn (Listener.handler l) e)
                           (registered m)) |}.

(** The operations on a manager. *)
Inductive op :=
| SetupOutsideClick
| SetupEscapeKey
| SetupScrollEvents
| Cleanup
| Dispatch (e : domEvent).

Definition step (m : t) (o : op) : t :=
  match o with
  | SetupOutsideClick => setupOutsideClick m
  | SetupEscapeKey => setupEscapeKey m
  | SetupScrollEvents => setupScrollEvents m
  | Cleanup => cleanup m
  | Dispatch e => dispatch e m
  end.

Definition run (m : t) (ops : list op) : t := fold_left step ops m.

(** *** The focus trap *)

Module KeyboardEvent.
Record t := { key : string; shiftKey : bool }.
End KeyboardEvent.

(** What [handleTabKey] does with a key press: nothing (the browser's
    default applies), or [el.focus()] with [event.preventDefault()]; a
    [focus()] on [undefined] would throw. *)
Inductive outcome :=
| Ignored
| Focused (el : nat)
| Throws.

(** [document.activeElement === el], where [activeElement] is an element
    or [null] and [el] an element or [undefined]. *)
Definition sameElement (activeElement el : option nat) : bool :=
  match activeElement, el with
  | Some a, Some b => Nat.eqb a b
  | _, _ => false
  end.

Definition handleTabKey (focusableElements : list nat) (activeElement : option nat)
    (event : KeyboardEvent.t) : outcome :=
  let firstElement := head focusableElements in
  let lastElement := last focusableElements in
  if negb (String.eqb (KeyboardEvent.key event) "Tab") then Ignored
  else if KeyboardEvent.shiftKey event then
    if sameElement activeElement firstElement then
      match lastElement with Some el => Focused el | None => Throws end
    else Ignored
  else
    if sameElement activeElement lastElement then
      match firstElement with Some el => Focused el | None => Throws end
    else Ignored.

End InteractionManager.

(** ** LinkPreviewer.tsx *)

Module LinkPreviewer.

(** The outcome of a call that may throw. *)
Inductive result (A : Type) :=
| Ok (a : A)
| Throw (e : string).
Arguments Ok {A} a.
Arguments Throw {A} e.

Definition DEBOUNCE_DELAY : Q := 200.
Definition HIDE_DELAY : Q := 150.
Definition LOAD_TIMEOUT : Q := 8000.

(** The functions the component hands to [window.setTimeout]. *)
Inductive callback :=
| CbShowPreview
| CbHide
| CbSetSrc
| CbLoadTimeout.

(** The state one component instance works on: its signals, its four
    timer handles, the two module-level URL caches, and what it uses of the
    browser (the window, the table of pending timers and the next timer
    id).  The signal [targetElement] only feeds the position of the Popup
    and is left out. *)
Record t := {
  showPreviewer : bool;
  isLoading : bool;
  hasError : bool;
  errorMessage : string;
  iframeSrc : string;
  debounceTimer : option nat;
  hideTimer : option nat;
  loadTimer : option nat;
  setSrcTimer : option nat;
  loadedUrls : gset string;
  failedUrls : gset string;
  win : window.t;
  timers : gmap nat (callback * Q);
  nextTimer : nat
}.

Definition set_showPreviewer (v : bool) (s : t) : t :=
  {| showPreviewer := v; isLoading := isLoading s; hasError := hasError s;
     errorMessage := errorMessage s; iframeSrc := iframeSrc s;
     debounceTimer := debounceTimer s; hideTimer := hideTimer s;
     loadTimer := loadTimer s; setSrcTimer := setSrcTimer s;
     loadedUrls := loadedUrls s; failedUrls := failedUrls s; win := win s;
     timers := timers s; nextTimer := nextTimer s |}.

Definition set_isLoading (v : bool) (s : t) : t :=
  {| showPreviewer := showPreviewer s; isLoading := v; hasError := hasError s;
     errorMessage := errorMessage s; iframeSrc := iframeSrc s;
     debounceTimer := debounceTimer s; hideTimer := hideTimer s;
     loadTimer := loadTimer s; setSrcTimer := setSrcTimer s;
     loadedUrls := loadedUrls s; failedUrls := failedUrls s; win := win s;
     timers := timers s; nextTimer := nextTimer s |}.

Definition set_hasError (v : bool) (s : t) : t :=
  {| showPreviewer := showPreviewer s; isLoading := isLoading s; hasError := v;
     errorMessage := errorMessage s; iframeSrc := iframeSrc s;
     debounceTimer := debounceTimer s; hideTimer := hideTimer s;
     loadTimer := loadTimer s; setSrcTimer := setSrcTimer s;
     loadedUrls := loadedUrls s; failedUrls := failedUrls s; win := win s;
     timers := timers s; nextTimer := nextTimer s |}.

Definition set_errorMessage (v : string) (s : t) : t :=
  {| showPreviewer := showPreviewer s; isLoading := isLoading s;
     hasError := hasError s; errorMessage := v; iframeSrc := iframeSrc s;
     debounceTimer := debounceTimer s; hideTimer := hideTimer s;
     loadTimer := loadTimer s; setSrcTimer := setSrcTimer s;
     loadedUrls := loadedUrls s; failedUrls := failedUrls s; win := win s;
     timers := timers s; nextTimer := nextTimer s |}.

Definition set_iframeSrc (v : string) (s : t) : t :=
  {| showPreviewer := showPreviewer s; isLoading := isLoading s;
     hasError := hasError s; errorMessage := errorMessage s; iframeSrc := v;
     debounceTimer := debounceTimer s; hideTimer := hideTimer s;
     loadTimer := loadTimer s; setSrcTimer := setSrcTimer s;
     loadedUrls := loadedUrls s; failedUrls := failedUrls s; win := win s;
     timers := timers s; nextTimer := nextTimer s |}.

Definition set_debounceTimer (v : option nat) (s : t) : t :=
  {| showPreviewer := showPreviewer s; isLoading := isLoading s;
     hasError := hasError s; errorMessage := errorMessage s; iframeSrc := iframeSrc s;
     debounceTimer := v; hideTimer := hideTimer s; loadTimer := loadTimer s;
     setSrcTimer := setSrcTimer s; loadedUrls := loadedUrls s;
     failedUrls := failedUrls s; win := win s; timers := timers s;
     nextTimer := nextTimer s |}.

Definition set_hideTimer (v : option nat) (s : t) : t :=
  {| showPreviewer := showPreviewer s; isLoading := isLoading s;
     hasError := hasError s; errorMessage := errorMessage s; iframeSrc := iframeSrc s;
     debounceTimer := debounceTimer s; hideTimer := v; loadTimer := loadTimer s;
     setSrcTimer := setSrcTimer s; loadedUrls := loadedUrls s;
     failedUrls := failedUrls s; win := win s; timers := timers s;
     nextTimer := nextTimer s |}.

Definition set_loadTimer (v : option nat) (s : t) : t :=
  {| showPreviewer := showPreviewer s; isLoading := isLoading s;
     hasError := hasError s; errorMessage := errorMessage s; iframeSrc := iframeSrc s;
     debounceTimer := debounceTimer s; hideTimer := hideTimer s; loadTimer := v;
     setSrcTimer := setSrcTimer s; loadedUrls := loadedUrls s;
     failedUrls := failedUrls s; win := win s; timers := timers s;
     nextTimer := nextTimer s |}.

Definition set_setSrcTimer (v : option nat) (s : t) : t :=
  {| showPreviewer := showPreviewer s; isLoading := isLoading s;
     hasError := hasError s; errorMessage := errorMessage s; iframeSrc := iframeSrc s;
     debounceTimer := debounceTimer s; hideTimer := hideTimer s;
     loadTimer := loadTimer s; setSrcTimer := v; loadedUrls := loadedUrls s;
     failedUrls := failedUrls s; win := win s; timers := timers s;
     nextTimer := nextTimer s |}.

Definition set_loadedUrls (v : gset string) (s : t) : t :=
  {| showPreviewer := showPreviewer s; isLoading := isLoading s;
     hasError := hasError s; errorMessage := errorMessage s; iframeSrc := iframeSrc s;
     debounceTimer := debounceTimer s; hideTimer := hideTimer s;
     loadTimer := loadTimer s; setSrcTimer := setSrcTimer s; loadedUrls := v;
     failedUrls := failedUrls s; win := win s; timers := timers s;
     nextTimer := nextTimer s |}.

Definition set_failedUrls (v : gset string) (s : t) : t :=
  {| showPreviewer := showPreviewer s; isLoading := isLoading s;
     hasError := hasError s; errorMessage := errorMessage s; iframeSrc := iframeSrc s;
     debounceTimer := debounceTimer s; hideTimer := hideTimer s;
     loadTimer := loadTimer s; setSrcTimer := setSrcTimer s;
     loadedUrls := loadedUrls s; failedUrls := v; win := win s; timers := timers s;
     nextTimer := nextTimer s |}.

Definition set_win (v : window.t) (s : t) : t :=
  {| showPreviewer := showPreviewer s; isLoading := isLoading s;
     hasError := hasError s; errorMessage := errorMessage s; iframeSrc := iframeSrc s;
     debounceTimer := debounceTimer s; hideTimer := hideTimer s;
     loadTimer := loadTimer s; setSrcTimer := setSrcTimer s;
     loadedUrls := loadedUrls s; failedUrls := failedUrls s; win := v;
     timers := timers s; nextTimer := nextTimer s |}.

Definition set_timers (v : gmap nat (callback * Q)) (s : t) : t :=
  {| showPreviewer := showPreviewer s; isLoading := isLoading s;
     hasError := hasError s; errorMessage := errorMessage s; iframeSrc := iframeSrc s;
     debounceTimer := debounceTimer s; hideTimer := hideTimer s;
     loadTimer := loadTimer s; setSrcTimer := setSrcTimer s;
     loadedUrls := loadedUrls s; failedUrls := failedUrls s; win := win s; timers := v;
     nextTimer := nextTimer s |}.

Definition set_nextTimer (v : nat) (s : t) : t :=
  {| showPreviewer := showPreviewer s; isLoading := isLoading s;
     hasError := hasError s; errorMessage := errorMessage s; iframeSrc := iframeSrc s;
     debounceTimer := debounceTimer s; hideTimer := hideTimer s;
     loadTimer := loadTimer s; setSrcTimer := setSrcTimer s;
     loadedUrls := loadedUrls s; failedUrls := failedUrls s; win := win s;
     timers := timers s; nextTimer := v |}.

(** The state when the component function has run, over the caches and
    the window it finds: the signals at their initial values, no timer.  The
    DOM is not attached yet. *)
Definition create (loaded failed : gset string) (w : window.t) : t :=
  {| showPreviewer := false; isLoading := false; hasError := false;
     errorMessage := EmptyString; iframeSrc := EmptyString;
     debounceTimer := None; hideTimer := None; loadTimer := None; setSrcTimer := None;
     loadedUrls := loaded; failedUrls := failed;
     win := w; timers := ∅; nextTimer := O |}.

(** [window.setTimeout]: a fresh id, the callback pending under it. *)
Definition setTimeout (cb : callback) (delay : Q) (s : t) : nat * t :=
  let id := nextTimer s in
  (id, set_nextTimer (S id) (set_timers (<[id := (cb, delay)]> (timers s)) s)).

(** [clearTimeout]: of [undefined], or of an id that is no longer pending,
    it does nothing. *)
Definition clearTimeout (h : option nat) (s : t) : t :=
  match h with
  | Some id => set_timers (delete id (timers s)) s
  | None => s
  end.

Definition isMobileDevice (s : t) : bool :=
  JS.le (window.innerWidth (win s)) 768.

Section Component.

(** The platform's [URL] constructor, which throws on a string it cannot
    parse, and the property [props.url] of the instance. *)
Context {URL : Type} (new_URL : string -> result URL).
Variable url : string.

(** [isValidUrl]: the [try] returns [true], the [catch] returns [false]. *)
Definition isValidUrl (u : string) : bool :=
  match new_URL u with
  | Ok _ => true
  | Throw _ => false
  end.

Definition loadPreviewContent (s : t) : t :=
  let '(id, s) := setTimeout CbSetSrc 100 s in
  set_setSrcTimer (Some id) s.

Definition loadPreview (s : t) : t :=
  if String.eqb (iframeSrc s) url && negb (hasError s) then s
  else
    let s := set_isLoading true s in
    let s := set_hasError false s in
    let s := set_errorMessage EmptyString s in
    if bool_decide (url ∈ loadedUrls s) then
      let s := set_isLoading false s in
      let s := set_hasError false s in
      set_iframeSrc url s
    else if bool_decide (url ∈ failedUrls s) then
      let s := set_isLoading false s in
      let s := set_hasError true s in
      set_errorMessage "之前加载失败，可能是跨域限制或网络问题" s
    else loadPreviewContent s.

Definition showPreview (s : t) : t :=
  if negb (isValidUrl url) then
    let s := set_hasError true s in
    let s := set_errorMessage "无效的URL地址" s in
    set_showPreviewer true s
  else if isMobileDevice s then s
  else
    let s := clearTimeout (hideTimer s) s in
    let s := set_showPreviewer true s in
    loadPreview s.

Definition handleIframeLoad (s : t) : t :=
  let s := clearTimeout (loadTimer s) s in
  let s := set_isLoading false s in
  let s := set_hasError false s in
  set_loadedUrls ({[url]} ∪ loadedUrls s) s.

Definition handleIframeError (s : t) : t :=
  let s := clearTimeout (loadTimer s) s in
  let s := set_isLoading false s in
  let s := set_hasError true s in
  let s := set_errorMessage "无法加载预览内容，可能是跨域限制或网络问题" s in
  set_failedUrls ({[url]} ∪ failedUrls s) s.

Definition handleMouseEnter (s : t) : t :=
  let s := clearTimeout (debounceTimer s) s in
  let s := clearTimeout (hideTimer s) s in
  let '(id, s) := setTimeout CbShowPreview DEBOUNCE_DELAY s in
  set_debounceTimer (Some id) s.

Definition handleMouseLeave (s : t) : t :=
  let s := clearTimeout (debounceTimer s) s in
  let s := clearTimeout (loadTimer s) s in
  let s := clearTimeout (setSrcTimer s) s in
  let '(id, s) := setTimeout CbHide HIDE_DELAY s in
  set_hideTimer (Some id) s.

Definition handlePopupMouseEnter (s : t) : t :=
  let s := clearTimeout (hideTimer s) s in
  let s := clearTimeout (debounceTimer s) s in
  set_showPreviewer true s.

Definition handlePopupMouseLeave (s : t) : t :=
  let s := clearTimeout (hideTimer s) s in
  let '(id, s) := setTimeout CbHide HIDE_DELAY s in
  set_hideTimer (Some id) s.

(** The body of each timer callback. *)
Definition runCallback (cb : callback) (s : t) : t :=
  match cb with
  | CbShowPreview => showPreview s
  | CbHide => set_showPreviewer false s
  | CbSetSrc =>
      let s := set_iframeSrc url s in
      let '(id, s) := setTimeout CbLoadTimeout LOAD_TIMEOUT s in
      set_loadTimer (Some id) s
  | CbLoadTimeout =>
      let s := set_isLoading false s in
      let s := set_hasError true s in
      let s := set_errorMessage "加载超时，请稍后重试" s in
      set_failedUrls ({[url]} ∪ failedUrls s) s
  end.

(** [onCleanup]: all four timers are cleared. *)
Definition cleanup (s : t) : t :=
  let s := clearTimeout (debounceTimer s) s in
  let s := clearTimeout (hideTimer s) s in
  let s := clearTimeout (loadTimer s) s in
  clearTimeout (setSrcTimer s) s.

(** A mounted component.  The Popup is rendered from the start
    ([destroyOnHide={false}], line 235) and with it the iframe (lines
    304-323), whose source is the initial [iframeSrc], the empty string: the
    iframe fires a load event for its blank document, and
    [onLoad={handleIframeLoad}] runs before the pointer can reach the
    link. *)
Definition mount (loaded failed : gset string) (w : window.t) : t :=
  handleIframeLoad (create loaded failed w).

(** What can happen to a mounted component: the four mouse handlers, a
    pending timer coming due, the two iframe events, a resize of the
    window, and the cleanup at unmount. *)
Inductive event :=
| MouseEnter
| MouseLeave
| PopupMouseEnter
| PopupMouseLeave
| TimerFires (id : nat)
| IframeLoad
| IframeError
| Resize (w : window.t)
| Cleanup.

(** A timer that was cleared, or has fired, is not pending and does
    nothing. *)
Definition step (s : t) (e : event) : t :=
  match e with
  | MouseEnter => handleMouseEnter s
  | MouseLeave => handleMouseLeave s
  | PopupMouseEnter => handlePopupMouseEnter s
  | PopupMouseLeave => handlePopupMouseLeave s
  | TimerFires id =>
      match timers s !! id with
      | Some (cb, _) => runCallback cb (set_timers (delete id (timers s)) s)
      | None => s
      end
  | IframeLoad => handleIframeLoad s
  | IframeError => handleIframeError s
  | Resize w => set_win w s
  | Cleanup => cleanup s
  end.

Definition run (s : t) (tr : list event) : t := fold_left step tr s.

End Component.

(** Every pending timer that will call [showPreview] is the one the
    handle [debounceTimer] names; and no such timer is pending. *)
Definition oneDebounce (s : t) : Prop :=
  forall (id : nat) (d : Q),
    timers s !! id = Some (CbShowPreview, d) -> debounceTimer s = Some id.

Definition noShowPending (s : t) : Prop :=
  forall (id : nat) (d : Q), timers s !! id <> Some (CbShowPreview, d).


(** What the load event at mount leaves behind, for good: the URL is in
    the success cache, so [loadPreviewContent] is never reached; no source
    timer and no load timeout exists, nothing is loading, and neither the
    timeout message nor the message of a cached failure is set. *)
Definition primed (url : string) (s : t) : Prop :=
  url ∈ loadedUrls s /\
  loadTimer s = None /\
  setSrcTimer s = None /\
  isLoading s = false /\
  (forall (id : nat) (d : Q), timers s !! id <> Some (CbSetSrc, d)) /\
  (forall (id : nat) (d : Q), timers s !! id <> Some (CbLoadTimeout, d)) /\
  errorMessage s <> "加载超时，请稍后重试"%string /\
  errorMessage s <> "之前加载失败，可能是跨域限制或网络问题"%string.

End LinkPreviewer.

(** ** Concrete inputs *)

Module Inputs.

(** A desktop window and two smaller ones. *)
Definition desktop : window.t := {| window.innerWidth := 1200; window.innerHeight := 800 |}.
Definition w800x600 : window.t := {| window.innerWidth := 800; window.innerHeight := 600 |}.
Definition lowDesktop : window.t := {| window.innerWidth := 1200; window.innerHeight := 205 |}.

(** A 100 x 20 link near the top of the window, and a 100 x 50 one near its
    bottom edge. *)
Definition linkNearTop : DOMRect.t :=
  {| DOMRect.left := 500; DOMRect.top := 100; DOMRect.right := 600;
     DOMRect.bottom := 120; DOMRect.width := 100; DOMRect.height := 20 |}.
Definition linkNearBottom : DOMRect.t :=
  {| DOMRect.left := 500; DOMRect.top := 700; DOMRect.right := 600;
     DOMRect.bottom := 750; DOMRect.width := 100; DOMRect.height := 50 |}.

(** A 100 x 700 block that starts near the top and ends at the bottom edge
    of the desktop window, and a link scrolled out above the window. *)
Definition tallBlock : DOMRect.t :=
  {| DOMRect.left := 500; DOMRect.top := 100; DOMRect.right := 600;
     DOMRect.bottom := 800; DOMRect.width := 100; DOMRect.height := 700 |}.
Definition linkAbove : DOMRect.t :=
  {| DOMRect.left := 500; DOMRect.top := -100; DOMRect.right := 600;
     DOMRect.bottom := -80; DOMRect.width := 100; DOMRect.height := 20 |}.

(** A point target at a pointer position near the bottom right corner. *)
Definition atPointer : Popup.props.t :=
  {| Popup.props.target := Some (Point 1000 700);
     Popup.props.placement := Some Placement.bottom;
     Popup.props.offset := None;
     Popup.props.autoAdjust := Some true;
     Popup.props.flip := None;
     Popup.props.variant := None |}.

(** The example scenario: the point (100, 50), placement bottom, offset
    [0, 10], autoAdjust on. *)
Definition scenario : Popup.props.t :=
  {| Popup.props.target := Some (Point 100 50);
     Popup.props.placement := Some Placement.bottom;
     Popup.props.offset := Some (0, 10);
     Popup.props.autoAdjust := Some true;
     Popup.props.flip := None;
     Popup.props.variant := None |}.

(** An element target with a given placement, variant and flip flag. *)
Definition onElement (rect : DOMRect.t) (pl : Placement.t) (v : option Variant.t)
    (fl : option bool) : Popup.props.t :=
  {| Popup.props.target := Some (Element rect);
     Popup.props.placement := Some pl;
     Popup.props.offset := None;
     Popup.props.autoAdjust := Some true;
     Popup.props.flip := fl;
     Popup.props.variant := v |}.

(** The example scenario for the draft engine: a measured popup of
    200 x 100 in an 800 x 600 window. *)
Definition scenarioDom : PositionEngine.Dom.t :=
  {| PositionEngine.Dom.win := w800x600;
     PositionEngine.Dom.scrollX := 0; PositionEngine.Dom.scrollY := 0;
     PositionEngine.Dom.popupRect :=
       {| DOMRect.left := 0; DOMRect.top := 0; DOMRect.right := 200;
          DOMRect.bottom := 100; DOMRect.width := 200; DOMRect.height := 100 |} |}.

Definition scenarioOptions : PositionEngine.options.t :=
  {| PositionEngine.options.target := Some (Point 100 50);
     PositionEngine.options.placement := Some Placement.bottom;
     PositionEngine.options.offset := Some (0, 10);
     PositionEngine.options.autoAdjust := Some true;
     PositionEngine.options.flip := Some true |}.

(** A measured popup of 400 x 200 in the desktop window. *)
Definition desktopDom : PositionEngine.Dom.t :=
  {| PositionEngine.Dom.win := desktop;
     PositionEngine.Dom.scrollX := 0; PositionEngine.Dom.scrollY := 0;
     PositionEngine.Dom.popupRect :=
       {| DOMRect.left := 0; DOMRect.top := 0; DOMRect.right := 400;
          DOMRect.bottom := 200; DOMRect.width := 400; DOMRect.height := 200 |} |}.

(** A [top] placement over the link near the top, with and without
    autoAdjust. *)
Definition aboveLink (autoAdjust : bool) : PositionEngine.options.t :=
  {| PositionEngine.options.target := Some (Element linkNearTop);
     PositionEngine.options.placement := Some Placement.top;
     PositionEngine.options.offset := None;
     PositionEngine.options.autoAdjust := Some autoAdjust;
     PositionEngine.options.flip := Some true |}.

(** A [right] placement beside the link near the top with an offset of
    (5, 7), autoAdjust and flip not set. *)
Definition besideLink : PositionEngine.options.t :=
  {| PositionEngine.options.target := Some (Element linkNearTop);
     PositionEngine.options.placement := Some Placement.right;
     PositionEngine.options.offset := Some (5, 7);
     PositionEngine.options.autoAdjust := None;
     PositionEngine.options.flip := None |}.

(** Animation options: the fade preset with no duration configured, with
    a duration of 0, and with a duration of 200. *)
Definition fade (duration : option Q) : AnimationManager.options.t :=
  {| AnimationManager.options.animationClass := None;
     AnimationManager.options.animationNone := false;
     AnimationManager.options.presetAnimation :=
       {| AnimationManager.Preset.enter := "opacity-0";
          AnimationManager.Preset.enterActive := "opacity-100 transition-opacity duration-200";
          AnimationManager.Preset.exit := "opacity-100";
          AnimationManager.Preset.exitActive := "opacity-0 transition-opacity duration-150" |};
     AnimationManager.options.duration := duration |}.

(** A stand-in for the platform's [URL] constructor on the concrete
    inputs below: it parses what starts with [https://] and throws on
    anything else. *)
Definition new_URL (u : string) : LinkPreviewer.result string :=
  if String.prefix "https://" u then LinkPreviewer.Ok u
  else LinkPreviewer.Throw "TypeError: Invalid URL".

(** A page that takes longer than the load timeout, and a string that is
    no URL. *)
Definition slowUrl : string := "https://slow.example/".
Definition notAUrl : string := "not a url".

(** A phone-sized window. *)
Definition phone : window.t := {| window.innerWidth := 390; window.innerHeight := 844 |}.

(** A preview that fails: the pointer enters the link, the debounce timer
    (id 0) fires and the show request puts the URL in the iframe, and the
    iframe fires an error event. *)
Definition failedPreview : list LinkPreviewer.event :=
  [LinkPreviewer.MouseEnter; LinkPreviewer.TimerFires 0; LinkPreviewer.IframeError].


(** A mounted component for [slowUrl] over empty caches, and the same
    component after a failed preview. *)
Definition knownGood : LinkPreviewer.t := LinkPreviewer.mount slowUrl ∅ ∅ desktop.

End Inputs.

(** * Properties *)

(** Division by two is multiplication by one half; [lra] wants the latter. *)
Ltac qhalf := unfold Qdiv in *; change (/ 2) with (1 # 2) in *.

Module JSFacts.
Import JS.

Lemma lt_spec a b : reflect (a < b) (lt a b).
Proof.
  unfold lt. destruct (Qle_bool b a) eqn:E; simpl; constructor.
  - apply Qle_bool_iff in E. lra.
  - destruct (Qlt_le_dec a b) as [H|H]; [exact H|].
    apply Qle_bool_iff in H. congruence.
Qed.

Lemma gt_spec a b : reflect (b < a) (gt a b).
Proof. unfold gt. apply lt_spec. Qed.

Lemma le_spec a b : reflect (a <= b) (le a b).
Proof.
  unfold le. destruct (Qle_bool a b) eqn:E; constructor.
  - now apply Qle_bool_iff.
  - intros H. apply Qle_bool_iff in H. congruence.
Qed.

Lemma min_le_l a b : min a b <= a.
Proof. unfold min. destruct (le_spec a b); lra. Qed.

Lemma min_le_r a b : min a b <= b.
Proof. unfold min. destruct (le_spec a b); lra. Qed.

End JSFacts.

(** Case analysis on every number comparison of the goal. *)
Ltac js_cases :=
  repeat match goal with
  | |- context [JS.lt ?a ?b] => destruct (JSFacts.lt_spec a b)
  | |- context [JS.gt ?a ?b] => destruct (JSFacts.gt_spec a b)
  | |- context [JS.le ?a ?b] => destruct (JSFacts.le_spec a b)
  end.

(** ** Popup.tsx: the position *)

Module PopupSpec.
Import Popup.

(** The anchors of the concrete inputs are rectangles of real elements. *)
Lemma inputs_wf :
  DOMRect.wf Inputs.linkNearTop /\ DOMRect.wf Inputs.linkNearBottom /\
  DOMRect.wf Inputs.tallBlock /\ DOMRect.wf Inputs.linkAbove.
Proof. unfold DOMRect.wf. repeat split; vm_compute; discriminate. Qed.

(** The margin of every responsive size is positive. *)
Lemma margin_pos win : 0 < Size.margin (getResponsiveSize win).
Proof. unfold getResponsiveSize. js_cases; simpl; lra. Qed.

(** Whatever the window, the popup and a margin on each side fit in its
    width. *)
Lemma width_fits win :
  Size.width (getResponsiveSize win) + 2 * Size.margin (getResponsiveSize win)
  <= window.innerWidth win.
Proof.
  unfold getResponsiveSize. js_cases; simpl.
  - pose proof (JSFacts.min_le_l (window.innerWidth win - 32) 320). lra.
  - pose proof (JSFacts.min_le_r (window.innerWidth win * 0.8) 400). lra.
  - lra.
Qed.



(** A point anchor is returned as it is, under the label [custom]. *)
Lemma point_target_passthrough (p : props.t) (win : window.t) (px py : Q) :
  props.target p = Some (Point px py) ->
  calculatePosition p win =
    {| Position.x := px; Position.y := py;
       Position.placement := Some Placement.custom; Position.adjusted := Some false |}.
Proof. intros H. unfold calculatePosition. now rewrite H. Qed.


(** A popup smaller than the viewport is not enough for an element anchor
    either: in a 1200 x 205 window the 200 high popup below a link at
    y = 120 is clamped to y = 205 - 200 - 10 = -5. *)
Lemma margin_must_fit :
  Size.height (getResponsiveSize Inputs.lowDesktop) < window.innerHeight Inputs.lowDesktop /\
  ~ within_viewport (Size.width (getResponsiveSize Inputs.lowDesktop))
                    (Size.height (getResponsiveSize Inputs.lowDesktop)) Inputs.lowDesktop
                    (calculatePosition
                       (Inputs.onElement Inputs.linkNearTop Placement.bottom None None)
                       Inputs.lowDesktop).
Proof.
  split; [reflexivity|].
  intros (_ & _ & Hy & _). vm_compute in Hy. now apply Hy.
Qed.

(** Nor does the invariant survive the flip block, which overwrites the
    clamped coordinate: a tooltip above a block that reaches the bottom edge
    is moved to y = 800 in an 800 high window. *)
Lemma flip_leaves_viewport :
  ~ within_viewport (Size.width (getResponsiveSize Inputs.desktop))
                    (Size.height (getResponsiveSize Inputs.desktop)) Inputs.desktop
                    (calculatePosition
                       (Inputs.onElement Inputs.tallBlock Placement.top
                                         (Some Variant.tooltip) (Some true))
                       Inputs.desktop).
Proof. intros (_ & _ & _ & Hy). vm_compute in Hy. now apply Hy. Qed.

(** C2, counterexample: on the example scenario the result is not
    x = 10, y = 60, adjusted = true. *)
Lemma scenario_not_clamped :
  ~ (Position.x (calculatePosition Inputs.scenario Inputs.w800x600) == 10 /\
     Position.y (calculatePosition Inputs.scenario Inputs.w800x600) == 60 /\
     Position.adjusted (calculatePosition Inputs.scenario Inputs.w800x600) = Some true).
Proof. intros (_ & _ & H). vm_compute in H. discriminate. Qed.

(** C2, as amended: on the example scenario (point (100, 50), placement
    bottom, offset [0, 10], 800 x 600 viewport, autoAdjust on) the position
    is the point itself, x = 100 and y = 50, with the label [custom] and
    adjusted = false. *)
Theorem scenario_returns_point :
  calculatePosition Inputs.scenario Inputs.w800x600 =
    {| Position.x := 100; Position.y := 50;
       Position.placement := Some Placement.custom; Position.adjusted := Some false |}.
Proof. reflexivity. Qed.

(** C3, counterexample: a [top] placement with flip enabled and a negative
    natural y (100 - 200), but with the default variant: the flip block is
    skipped, the label stays [top] and y is clamped to the margin. *)
Lemma flip_needs_tooltip_or_dropdown :
  props.placement (Inputs.onElement Inputs.linkNearTop Placement.top
                     (Some Variant.default) (Some true)) = Some Placement.top /\
  props.flip (Inputs.onElement Inputs.linkNearTop Placement.top
                (Some Variant.default) (Some true)) = Some true /\
  naturalTopY (Inputs.onElement Inputs.linkNearTop Placement.top
                 (Some Variant.default) (Some true))
              Inputs.desktop Inputs.linkNearTop < 0 /\
  ~ (Position.placement
       (calculatePosition (Inputs.onElement Inputs.linkNearTop Placement.top
                             (Some Variant.default) (Some true)) Inputs.desktop)
     = Some Placement.bottom /\
     0 <= Position.y
       (calculatePosition (Inputs.onElement Inputs.linkNearTop Placement.top
                             (Some Variant.default) (Some true)) Inputs.desktop) /\
     Position.adjusted
       (calculatePosition (Inputs.onElement Inputs.linkNearTop Placement.top
                             (Some Variant.default) (Some true)) Inputs.desktop)
     = Some true).
Proof.
  repeat split; try reflexivity.
  intros (H & _). vm_compute in H. discriminate.
Qed.

(** C3, as amended: for a requested [top] placement on an element anchor
    whose natural y is negative, with flip enabled and the variant tooltip
    or dropdown, the returned y is the one of the bottom placement, the
    anchor's bottom edge plus the y offset, and adjusted is true; that y is
    non-negative whenever the anchor's bottom edge plus the offset is. *)
Theorem flip_top_moves_below (p : props.t) (win : window.t) (rect : DOMRect.t) :
  props.target p = Some (Element rect) ->
  props.placement p = Some Placement.top ->
  props.variant p = Some Variant.tooltip \/ props.variant p = Some Variant.dropdown ->
  props.flip p = Some true ->
  naturalTopY p win rect < 0 ->
  Position.y (calculatePosition p win) = DOMRect.bottom rect + snd (offsetOf p) /\
  Position.adjusted (calculatePosition p win) = Some true /\
  (0 <= DOMRect.bottom rect + snd (offsetOf p) -> 0 <= Position.y (calculatePosition p win)).
Proof.
  intros Ht Hp Hv Hf Hy.
  assert (Hg : flipGuard p = true).
  { unfold flipGuard. destruct Hv as [-> | ->]; now rewrite Hf. }
  pose proof (margin_pos win) as Hm.
  unfold naturalTopY, offsetOf in *.
  unfold calculatePosition. rewrite Ht, Hp, Hg. cbv zeta.
  set (sz := getResponsiveSize win) in *.
  destruct (JSFacts.lt_spec
              (DOMRect.top rect - Size.height sz
               + snd (match props.offset p with Some o => o | None => (0, 0) end))
              (Size.margin sz)) as [_|Hn]; [|exfalso; lra].
  js_cases; cbn; auto.
Qed.

Lemma flip_top_witness :
  Position.y (calculatePosition
                (Inputs.onElement Inputs.linkNearTop Placement.top
                                  (Some Variant.tooltip) (Some true)) Inputs.desktop)
  = DOMRect.bottom Inputs.linkNearTop
    + snd (offsetOf (Inputs.onElement Inputs.linkNearTop Placement.top
                                      (Some Variant.tooltip) (Some true))) /\
  Position.adjusted (calculatePosition
                       (Inputs.onElement Inputs.linkNearTop Placement.top
                                         (Some Variant.tooltip) (Some true)) Inputs.desktop)
  = Some true /\
  0 <= Position.y (calculatePosition
                     (Inputs.onElement Inputs.linkNearTop Placement.top
                                       (Some Variant.tooltip) (Some true)) Inputs.desktop).
Proof.
  destruct (flip_top_moves_below
              (Inputs.onElement Inputs.linkNearTop Placement.top
                                (Some Variant.tooltip) (Some true))
              Inputs.desktop Inputs.linkNearTop) as (Hy & Ha & Hpos).
  - reflexivity.
  - reflexivity.
  - left. reflexivity.
  - reflexivity.
  - vm_compute. reflexivity.
  - split; [exact Hy|split; [exact Ha|]]. apply Hpos. vm_compute. discriminate.
Defined.

(** With the flip block not active (flip off, or a variant other than
    tooltip and dropdown) a [top] placement whose natural y is negative is
    not moved below the anchor: y is clamped to the margin, with
    adjusted = true. *)
Lemma no_flip_clamps_to_margin (p : props.t) (win : window.t) (rect : DOMRect.t) :
  props.target p = Some (Element rect) ->
  props.placement p = Some Placement.top ->
  flipGuard p = false ->
  naturalTopY p win rect < 0 ->
  Position.y (calculatePosition p win) = Size.margin (getResponsiveSize win) /\
  Position.adjusted (calculatePosition p win) = Some true.
Proof.
  intros Ht Hp Hg Hy.
  pose proof (margin_pos win) as Hm.
  unfold naturalTopY, offsetOf in *.
  unfold calculatePosition. rewrite Ht, Hp, Hg. cbv zeta.
  set (sz := getResponsiveSize win) in *.
  destruct (JSFacts.lt_spec
              (DOMRect.top rect - Size.height sz
               + snd (match props.offset p with Some o => o | None => (0, 0) end))
              (Size.margin sz)) as [_|Hn]; [|exfalso; lra].
  js_cases; cbn; auto.
Qed.

(** When the flip block moves a [top] placement below the anchor, the
    label that is returned is still the requested one. *)
Lemma flip_keeps_requested_label (p : props.t) (win : window.t) (rect : DOMRect.t) :
  props.target p = Some (Element rect) ->
  props.placement p = Some Placement.top ->
  Position.placement (calculatePosition p win) = Some Placement.top.
Proof.
  intros Ht Hp. unfold calculatePosition. rewrite Ht, Hp. cbv zeta.
  destruct (flipGuard p); js_cases; reflexivity.
Qed.

(** The flipped y is negative when the anchor itself is above the window. *)
Lemma flipped_y_can_be_negative :
  Position.y (calculatePosition
                (Inputs.onElement Inputs.linkAbove Placement.top
                                  (Some Variant.tooltip) (Some true)) Inputs.desktop) < 0.
Proof. reflexivity. Qed.

(** C7, at the failing input: the anchor near the bottom edge has by far
    the most space above it (700, against 50, 500 and 600), but placement
    [auto] does not give the position of placement [top]: y is 590, the
    clamped y of [bottom], not 500. *)
Theorem auto_ignores_space :
  (forall pl, availableSpace Inputs.desktop Inputs.linkNearBottom pl
              <= availableSpace Inputs.desktop Inputs.linkNearBottom Placement.top) /\
  Position.y (calculatePosition
                (Inputs.onElement Inputs.linkNearBottom Placement.auto None None)
                Inputs.desktop) == 590 /\
  Position.y (calculatePosition
                (Inputs.onElement Inputs.linkNearBottom Placement.top None None)
                Inputs.desktop) == 500 /\
  Position.y (calculatePosition
                (Inputs.onElement Inputs.linkNearBottom Placement.bottom None None)
                Inputs.desktop) == 590.
Proof.
  split; [|repeat split].
  intros []; vm_compute; discriminate.
Qed.

(** What placement [auto] does in general: on an element anchor the
    position is the clamped one of placement [bottom], whatever space there
    is around the anchor: the coordinates and the adjusted flag are those
    computed for [bottom] with the flip off, and the label is [auto]. *)
Lemma auto_is_bottom (p : props.t) (win : window.t) (rect : DOMRect.t) :
  props.target p = Some (Element rect) ->
  props.placement p = Some Placement.auto ->
  Position.x (calculatePosition p win) = Position.x (calculatePosition (bottomNoFlip p) win) /\
  Position.y (calculatePosition p win) = Position.y (calculatePosition (bottomNoFlip p) win) /\
  Position.adjusted (calculatePosition p win)
    = Position.adjusted (calculatePosition (bottomNoFlip p) win) /\
  Position.placement (calculatePosition p win) = Some Placement.auto.
Proof.
  intros Ht Hp. unfold calculatePosition, bottomNoFlip, flipGuard.
  cbn [props.target props.placement props.offset props.flip props.variant].
  rewrite Ht, Hp. cbv zeta.
  destruct (props.variant p) as [[]|]; destruct (JS.truthy (props.flip p));
    cbn [JS.truthy Placement.eqb andb]; js_cases; repeat split; reflexivity.
Qed.

End PopupSpec.

(** ** The draft position engine *)

Module PositionEngineSpec.
Import PositionEngine.

(** For placement [auto], and for an absent or unknown placement,
    [calculateInitialPosition] and [calculateAutoPosition] only call each
    other: no call depth is enough for a result. *)
Lemma auto_never_returns (fuel : nat) (o : options.t) (d : Dom.t)
    (targetRect popupRect : DOMRect.t) :
  options.placement o = Some Placement.auto \/ options.placement o = None ->
  calculateInitialPosition fuel o d targetRect popupRect = None.
Proof.
  intros Hp. induction fuel as [|fuel IH]; [reflexivity|].
  cbn [calculateInitialPosition].
  assert (Hgo : match options.placement o with
                | Some Placement.auto | None => True
                | _ => False
                end) by (destruct Hp as [-> | ->]; exact I).
  destruct (options.placement o) as [[]|]; try contradiction;
    unfold calculateAutoPosition; rewrite IH; repeat destruct (JS.eq _ _); reflexivity.
Qed.

(** [handleFlip] on a [top] position with negative y: the position moves
    to the anchor's bottom edge and is relabelled [bottom]. *)
Lemma handleFlip_top (position : Position.t) (targetRect popupRect : DOMRect.t)
    (viewport : Viewport.t) :
  Position.placement position = Some Placement.top ->
  Position.y position < 0 ->
  handleFlip position targetRect popupRect viewport =
    {| Position.x := Position.x position; Position.y := DOMRect.bottom targetRect;
       Position.placement := Some Placement.bottom; Position.adjusted := Some true |}.
Proof.
  intros Hp Hy. unfold handleFlip. rewrite Hp. cbn [Placement.eqb andb].
  destruct (JSFacts.lt_spec (Position.y position) 0); [reflexivity|contradiction].
Qed.

(** With autoAdjust on, the clamp runs first and leaves nothing to flip:
    the engine keeps the label [top] and the clamped y = 10. *)
Lemma clamp_preempts_flip :
  exists r, calculatePosition 1 (Inputs.aboveLink true) Inputs.desktopDom = Some r /\
            Position.x r == 350 /\ Position.y r == 10 /\
            Position.placement r = Some Placement.top /\
            Position.adjusted r = Some true.
Proof. eexists. split; [reflexivity|]. repeat split; reflexivity. Qed.

(** With autoAdjust off the flip applies and the label becomes [bottom]. *)
Lemma flip_relabels_without_clamp :
  exists r, calculatePosition 1 (Inputs.aboveLink false) Inputs.desktopDom = Some r /\
            Position.x r == 350 /\ Position.y r == 120 /\
            Position.placement r = Some Placement.bottom /\
            Position.adjusted r = Some true.
Proof. eexists. split; [reflexivity|]. repeat split; reflexivity. Qed.

(** The example scenario on the draft engine: x = 0 is not below 0 and is
    left alone, and the offset is added a second time, so y = 70. *)
Lemma scenario_on_engine :
  exists r, calculatePosition 1 Inputs.scenarioOptions Inputs.scenarioDom = Some r /\
            Position.x r == 0 /\ Position.y r == 70 /\
            Position.placement r = Some Placement.bottom /\
            Position.adjusted r = Some false.
Proof. eexists. split; [reflexivity|]. repeat split; reflexivity. Qed.

End PositionEngineSpec.

(** ** The animation manager *)

Module AnimationManagerSpec.
Import AnimationManager.

(** The class helpers only add to the effects. *)
Lemma applyEnterClasses_keeps m :
  opts (applyEnterClasses m) = opts m /\
  animationState (applyEnterClasses m) = animationState m /\
  waits (applyEnterClasses m) = waits m.
Proof. unfold applyEnterClasses. destruct (nonEmpty _); auto. Qed.

Lemma applyEnterActiveClasses_keeps m :
  opts (applyEnterActiveClasses m) = opts m /\
  animationState (applyEnterActiveClasses m) = animationState m /\
  waits (applyEnterActiveClasses m) = waits m.
Proof. unfold applyEnterActiveClasses. destruct (nonEmpty _); auto. Qed.

Lemma applyExitClasses_keeps m :
  opts (applyExitClasses m) = opts m /\
  animationState (applyExitClasses m) = animationState m /\
  waits (applyExitClasses m) = waits m.
Proof. unfold applyExitClasses. repeat destruct (nonEmpty _); auto. Qed.

Lemma applyExitActiveClasses_keeps m :
  opts (applyExitActiveClasses m) = opts m /\
  animationState (applyExitActiveClasses m) = animationState m /\
  waits (applyExitActiveClasses m) = waits m.
Proof. unfold applyExitActiveClasses. destruct (nonEmpty _); auto. Qed.

(** A [show] that passes its guard: the state is ['entering'] and one
    promise, awaited by the rest of [show], has been added. *)
Lemma show_starts m :
  animationState m = exited \/ animationState m = exiting ->
  animationState (show m) = entering /\
  waits (show m) = waits m ++
    [{| Wait.cont := SetEntered; Wait.resolved := false; Wait.listening := true;
        Wait.timerPending := true;
        Wait.delay := JS.or_default (options.duration (opts m)) 300 |}].
Proof.
  intros Hs. unfold show.
  assert (Hgo : match animationState m with exited | exiting => True | _ => False end)
    by (destruct Hs as [-> | ->]; exact I).
  destruct (animationState m); try contradiction; unfold waitForAnimation; cbn;
    destruct (applyEnterActiveClasses_keeps
                (emit [ReadOffsetHeight] (applyEnterClasses (setState entering m))))
      as (Ho & Hst & Hw);
    destruct (applyEnterClasses_keeps (setState entering m)) as (Ho' & Hst' & Hw');
    rewrite Ho, Hst, Hw; cbn; rewrite Ho', Hst', Hw'; cbn; auto.
Qed.

(** A [show] while entering or entered returns at once. *)
Lemma show_noop m :
  animationState m = entering \/ animationState m = entered -> show m = m.
Proof. intros [H | H]; unfold show; now rewrite H. Qed.













(** The limit of the above: while the promise of an earlier [hide] is
    still waiting, its continuation can set ['exited'] between two [show]
    calls, and the second [show] starts a second entrance. *)
Lemma hide_in_flight_double_enter :
  entrances (run (create (Inputs.fade None))
                 [CallShow; TimerFires 0; CallHide; CallShow; TimerFires 1; CallShow])
  = 3%nat /\
  entrances (run (create (Inputs.fade None)) [CallShow; TimerFires 0; CallHide])
  = 1%nat.
Proof. split; reflexivity. Qed.

(** [waitForAnimation] adds one promise. *)
Lemma waitForAnimation_waits (k : continuation) (m : t) :
  waits (waitForAnimation k m) = waits m ++
    [{| Wait.cont := k; Wait.resolved := false; Wait.listening := true;
        Wait.timerPending := true;
        Wait.delay := JS.or_default (options.duration (opts m)) 300 |}].
Proof. reflexivity. Qed.

(** C9, counterexample: with a duration of 0 configured, the fallback
    timer of the wait is set to 300, not to 0. *)
Lemma zero_duration_waits_300 :
  options.duration (Inputs.fade (Some 0)) = Some 0 /\
  List.map Wait.delay (waits (waitForAnimation SetEntered (create (Inputs.fade (Some 0)))))
    = [300] /\
  ~ (exists w, latestWait (waitForAnimation SetEntered (create (Inputs.fade (Some 0))))
               = Some w /\ Wait.delay w == 0).
Proof.
  repeat split. intros (w & Hw & Hd). vm_compute in Hw. injection Hw as <-.
  vm_compute in Hd. discriminate.
Qed.

(** C9, as amended: the promise made by [waitForAnimation] has a fallback
    timer of the configured duration when that is set and not 0, and of 300
    when it is unset or 0.  Whichever comes first of a native end event and
    the timer resolves the promise and runs the continuation; the native
    path removes its listeners, the timer is spent when it fires; and once
    the promise is resolved the other path changes nothing.  So the timer
    alone completes the wait, event or no event. *)
Theorem waitForAnimation_first_of_two (m : t) (k : continuation) :
  exists w,
    latestWait (waitForAnimation k m) = Some w /\
    Wait.resolved w = false /\
    (options.duration (opts m) = None -> Wait.delay w = 300) /\
    (forall n, options.duration (opts m) = Some n -> n == 0 -> Wait.delay w = 300) /\
    (forall n, options.duration (opts m) = Some n -> ~ n == 0 -> Wait.delay w = n) /\
    (forall st, snd (handleAnimationEnd w st) = resume k /\
                Wait.resolved (fst (handleAnimationEnd w st)) = true /\
                Wait.listening (fst (handleAnimationEnd w st)) = false) /\
    (forall st, snd (timerFires w st) = resume k /\
                Wait.resolved (fst (timerFires w st)) = true /\
                Wait.timerPending (fst (timerFires w st)) = false) /\
    (forall st st', snd (timerFires (fst (handleAnimationEnd w st)) st') = st') /\
    (forall st st', snd (handleAnimationEnd (fst (timerFires w st)) st') = st').
Proof.
  eexists. split.
  { unfold latestWait. rewrite waitForAnimation_waits, List.map_app. cbn [List.map].
    apply List.last_last. }
  cbn. repeat split; unfold JS.or_default, JS.eq.
  - intros ->. reflexivity.
  - intros n -> Hn. apply Qeq_bool_iff in Hn. now rewrite Hn.
  - intros n -> Hn. destruct (Qeq_bool n 0) eqn:E; [|reflexivity].
    apply Qeq_bool_iff in E. contradiction.
Qed.

Lemma waitForAnimation_witness :
  exists w,
    latestWait (waitForAnimation SetEntered (create (Inputs.fade (Some 200)))) = Some w /\
    Wait.delay w = 200.
Proof.
  destruct (waitForAnimation_first_of_two (create (Inputs.fade (Some 200))) SetEntered)
    as (w & Hw & _ & _ & _ & Hd & _).
  exists w. split; [exact Hw|]. apply (Hd 200); [reflexivity|].
  intros H. vm_compute in H. discriminate.
Defined.

(** The timer of the latest promise alone finishes a [show] and a [hide]:
    neither waits for an event that may never come. *)
Lemma fireTimer_last (ws : list Wait.t) (w : Wait.t) (st : AnimationState) :
  fireTimer (length ws) (ws ++ [w]) st = (ws ++ [fst (timerFires w st)], snd (timerFires w st)).
Proof.
  induction ws as [|w0 ws IH]; cbn.
  - now destruct (timerFires w st).
  - now rewrite IH.
Qed.

Lemma hide_starts m :
  animationState m = entered \/ animationState m = entering ->
  animationState (hide m) = exiting /\
  waits (hide m) = waits m ++
    [{| Wait.cont := SetExited; Wait.resolved := false; Wait.listening := true;
        Wait.timerPending := true;
        Wait.delay := JS.or_default (options.duration (opts m)) 300 |}].
Proof.
  intros Hs. unfold hide.
  assert (Hgo : match animationState m with entered | entering => True | _ => False end)
    by (destruct Hs as [-> | ->]; exact I).
  destruct (animationState m); try contradiction; unfold waitForAnimation; cbn;
    destruct (applyExitActiveClasses_keeps
                (emit [ReadOffsetHeight] (applyExitClasses (setState exiting m))))
      as (Ho & Hst & Hw);
    destruct (applyExitClasses_keeps (setState exiting m)) as (Ho' & Hst' & Hw');
    rewrite Ho, Hst, Hw; cbn; rewrite Ho', Hst', Hw'; cbn; auto.
Qed.

Lemma hide_completes_by_timer (m : t) :
  animationState m = entered \/ animationState m = entering ->
  animationState (step (hide m) (TimerFires (length (waits m)))) = exited.
Proof.
  intros Hs. destruct (hide_starts m Hs) as (Hst & Hw).
  cbn [step]. rewrite Hw, fireTimer_last. reflexivity.
Qed.

Lemma show_completes_by_timer (m : t) :
  animationState m = exited \/ animationState m = exiting ->
  animationState (step (show m) (TimerFires (length (waits m)))) = entered.
Proof.
  intros Hs. destruct (show_starts m Hs) as (Hst & Hw).
  cbn [step]. rewrite Hw, fireTimer_last. reflexivity.
Qed.

End AnimationManagerSpec.

(** ** LinkPreviewer.tsx: caches, timers and the show request *)

Module LinkPreviewerSpec.
Import LinkPreviewer.

Ltac unfold_handlers :=
  unfold step, runCallback, showPreview, loadPreview, loadPreviewContent,
    handleIframeLoad, handleIframeError, handleMouseEnter, handleMouseLeave,
    handlePopupMouseEnter, handlePopupMouseLeave, cleanup, setTimeout, clearTimeout in *.

(** Projections of updated states. *)
Ltac fields :=
  cbn [showPreviewer isLoading hasError errorMessage iframeSrc debounceTimer hideTimer loadTimer setSrcTimer loadedUrls failedUrls win timers nextTimer
       set_showPreviewer set_isLoading set_hasError set_errorMessage set_iframeSrc set_debounceTimer set_hideTimer
       set_loadTimer set_setSrcTimer set_loadedUrls set_failedUrls set_win set_timers set_nextTimer] in *.

Ltac case_ifs :=
  repeat match goal with
  | |- context [if ?b then _ else _] => destruct b eqn:?
  | |- context [match ?o with Some _ => _ | None => _ end] => destruct o eqn:?
  | |- context [let '(_, _) := ?p in _] => destruct p eqn:?
  end.

(** A show request leaves both caches as they are. *)
Lemma showPreview_caches {URL : Type} (new_URL : string -> result URL) (url : string) (s : t) :
  loadedUrls (showPreview new_URL url s) = loadedUrls s /\
  failedUrls (showPreview new_URL url s) = failedUrls s.
Proof. unfold_handlers. case_ifs; cbn; auto. Qed.

(** What each step does to the caches: nothing, or [props.url] is added
    to one of them. *)
Lemma step_caches {URL : Type} (new_URL : string -> result URL) (url : string)
    (s : t) (e : event) :
  (loadedUrls (step new_URL url s e) = loadedUrls s /\
   failedUrls (step new_URL url s e) = failedUrls s) \/
  (loadedUrls (step new_URL url s e) = {[url]} ∪ loadedUrls s /\
   failedUrls (step new_URL url s e) = failedUrls s) \/
  (loadedUrls (step new_URL url s e) = loadedUrls s /\
   failedUrls (step new_URL url s e) = {[url]} ∪ failedUrls s).
Proof.
  destruct e; cbn [step].
  - left. unfold_handlers. case_ifs; cbn; auto.
  - left. unfold_handlers. case_ifs; cbn; auto.
  - left. unfold_handlers. case_ifs; cbn; auto.
  - left. unfold_handlers. case_ifs; cbn; auto.
  - destruct (timers s !! id) as [[[] d]|]; [| | | |left; auto].
    + left. cbn [runCallback].
      destruct (showPreview_caches new_URL url (set_timers (delete id (timers s)) s))
        as [-> ->]. cbn. auto.
    + left. cbn. auto.
    + left. unfold_handlers. cbn. auto.
    + right. right. cbn. auto.
  - right. left. unfold_handlers. case_ifs; cbn; auto.
  - right. right. unfold_handlers. case_ifs; cbn; auto.
  - left. cbn. auto.
  - left. unfold_handlers. case_ifs; cbn; auto.
Qed.

(** Entries are never removed, along any run. *)
Lemma caches_only_grow {URL : Type} (new_URL : string -> result URL) (url : string)
    (tr : list event) : forall s : t,
  loadedUrls s ⊆ loadedUrls (run new_URL url s tr) /\
  failedUrls s ⊆ failedUrls (run new_URL url s tr).
Proof.
  induction tr as [|e tr IH]; intros s; cbn; [split; set_solver|].
  destruct (IH (step new_URL url s e)) as [Hl Hf]. unfold run in *.
  destruct (step_caches new_URL url s e) as [[El Ef]|[[El Ef]|[El Ef]]];
    rewrite El in Hl; rewrite Ef in Hf; split; set_solver.
Qed.

(** A lookup in a timer table after insertions and deletions. *)
Ltac lookups :=
  repeat match goal with
  | H : (<[_ := _]> _) !! _ = Some _ |- _ =>
      apply lookup_insert_Some in H; destruct H as [[? ?]|[? H]]; subst
  | H : (delete _ _) !! _ = Some _ |- _ =>
      apply lookup_delete_Some in H; destruct H as [? H]
  end.

(** The load event at mount primes the success cache. *)
Lemma mount_primed (url : string) (loaded failed : gset string) (w : window.t) :
  primed url (mount url loaded failed w).
Proof.
  unfold primed, mount, handleIframeLoad, create, clearTimeout. fields.
  repeat split; try discriminate; try set_solver.
Qed.

(** A show request on a primed component never reaches
    [loadPreviewContent], nor the test of the failure cache. *)
Lemma showPreview_primed {URL : Type} (new_URL : string -> result URL) (url : string)
    (s : t) :
  primed url s -> primed url (showPreview new_URL url s).
Proof.
  intros (Hin & Hl & Hs & Hload & Hsrc & Hto & Hm1 & Hm2).
  unfold showPreview, loadPreview, clearTimeout.
  destruct (negb (isValidUrl new_URL url)); fields.
  { unfold primed. fields. repeat split; auto; discriminate. }
  destruct (isMobileDevice s).
  { unfold primed. repeat split; auto. }
  destruct (hideTimer s) as [h|]; fields.
  all: destruct (String.eqb (iframeSrc s) url && negb (hasError s)); fields.
  all: try rewrite (bool_decide_eq_true_2 _ Hin); fields.
  all: unfold primed; fields; repeat split; auto; try discriminate.
  all: intros id d H; lookups;
    solve [eapply Hsrc; eassumption | eapply Hto; eassumption].
Qed.

(** Case analysis on the timer handles, projections reduced in between. *)
Ltac handles :=
  repeat (fields;
          match goal with
          | |- context [match ?o with Some _ => _ | None => _ end] => destruct o eqn:?
          end);
  fields.

(** Every step keeps a primed component primed. *)
Lemma step_primed {URL : Type} (new_URL : string -> result URL) (url : string)
    (s : t) (e : event) :
  primed url s -> primed url (step new_URL url s e).
Proof.
  intros Hp. pose proof Hp as (Hin & Hl & Hs & Hload & Hsrc & Hto & Hm1 & Hm2).
  assert (Hdead : forall (i : nat) (cb : callback) (d : Q),
            timers s !! i = Some (cb, d) -> cb <> CbSetSrc /\ cb <> CbLoadTimeout).
  { intros i cb d H. split; intros ->; [exact (Hsrc i d H)|exact (Hto i d H)]. }
  destruct e; cbn [step].
  - unfold handleMouseEnter, clearTimeout, setTimeout. handles.
    all: unfold primed; fields; repeat split; auto.
    all: intros i d H; lookups; try discriminate; apply Hdead in H; tauto.
  - unfold handleMouseLeave, clearTimeout, setTimeout. handles.
    all: try congruence.
    all: unfold primed; fields; repeat split; auto.
    all: intros i d H; lookups; try discriminate; apply Hdead in H; tauto.
  - unfold handlePopupMouseEnter, clearTimeout. handles.
    all: unfold primed; fields; repeat split; auto.
    all: intros i d H; lookups; try discriminate; apply Hdead in H; tauto.
  - unfold handlePopupMouseLeave, clearTimeout, setTimeout. handles.
    all: unfold primed; fields; repeat split; auto.
    all: intros i d H; lookups; try discriminate; apply Hdead in H; tauto.
  - destruct (timers s !! id) as [[cb d0]|] eqn:E; [|exact Hp].
    assert (Hdel : primed url (set_timers (delete id (timers s)) s)).
    { unfold primed. fields. repeat split; auto.
      all: intros i d H; lookups; apply Hdead in H; tauto. }
    destruct (Hdead id cb d0 E) as [H1 H2].
    destruct cb; cbn [runCallback]; try congruence.
    + now apply showPreview_primed.
    + unfold primed in *. fields. exact Hdel.
  - unfold handleIframeLoad, clearTimeout. rewrite Hl. unfold primed. fields.
    repeat split; auto. set_solver.
  - unfold handleIframeError, clearTimeout. rewrite Hl. unfold primed. fields.
    repeat split; auto; discriminate.
  - unfold primed. fields. repeat split; auto.
  - unfold cleanup, clearTimeout. handles.
    all: try congruence.
    all: unfold primed; fields; repeat split; auto.
    all: intros i d H; lookups; try discriminate; apply Hdead in H; tauto.
Qed.

Lemma run_primed {URL : Type} (new_URL : string -> result URL) (url : string)
    (tr : list event) : forall s : t,
  primed url s -> primed url (run new_URL url s tr).
Proof.
  induction tr as [|e tr IH]; intros s Hs; [exact Hs|].
  apply (IH (step new_URL url s e)). now apply step_primed.
Qed.

(** On a primed component only an error event of the iframe writes the
    failure cache: the load timeout is never armed. *)
Lemma failed_only_by_error {URL : Type} (new_URL : string -> result URL) (url : string)
    (s : t) (e : event) :
  primed url s -> e <> IframeError ->
  failedUrls (step new_URL url s e) = failedUrls s.
Proof.
  intros (Hin & Hl & Hs & Hload & Hsrc & Hto & Hm1 & Hm2) He.
  destruct e; cbn [step]; try congruence.
  - unfold_handlers. case_ifs; cbn; auto.
  - unfold_handlers. case_ifs; cbn; auto.
  - unfold_handlers. case_ifs; cbn; auto.
  - unfold_handlers. case_ifs; cbn; auto.
  - destruct (timers s !! id) as [[[] d]|] eqn:E; auto.
    + cbn [runCallback].
      now destruct (showPreview_caches new_URL url (set_timers (delete id (timers s)) s))
        as [_ ->].
    + exfalso. exact (Hto id d E).
  - unfold_handlers. case_ifs; cbn; auto.
  - unfold_handlers. case_ifs; cbn; auto.
  - unfold_handlers. case_ifs; cbn; auto.
Qed.

(** After an error event on a mounted component the URL is in both
    caches, whatever happened before. *)
Lemma error_event_joins_both {URL : Type} (new_URL : string -> result URL) (url : string)
    (loaded failed : gset string) (w : window.t) (tr : list event) :
  url ∈ loadedUrls (run new_URL url (mount url loaded failed w) (tr ++ [IframeError])) /\
  url ∈ failedUrls (run new_URL url (mount url loaded failed w) (tr ++ [IframeError])).
Proof.
  unfold run. rewrite fold_left_app. cbn [fold_left step].
  destruct (run_primed new_URL url tr _ (mount_primed url loaded failed w)) as (Hin & _).
  unfold run in Hin. unfold handleIframeError, clearTimeout.
  destruct (loadTimer _); fields; split; auto; set_solver.
Qed.




(** [isValidUrl] never throws: a throwing constructor gives [false]. *)
Lemma isValidUrl_catches {URL : Type} (new_URL : string -> result URL) (u e : string) :
  new_URL u = Throw e -> isValidUrl new_URL u = false.
Proof. intros H. unfold isValidUrl. now rewrite H. Qed.




(** C6: when the [URL] constructor throws on [props.url], the show
    request returns normally ([isValidUrl] catches and gives [false]) with
    the error state set, the message for an invalid URL and the overlay
    shown; no timer is started or cleared, the timer handles, the loading
    flag, the iframe source and the caches are as before. *)
Theorem invalid_url_shows_error {URL : Type} (new_URL : string -> result URL)
    (url e : string) (s : t) :
  new_URL url = Throw e ->
  isValidUrl new_URL url = false /\
  hasError (showPreview new_URL url s) = true /\
  errorMessage (showPreview new_URL url s) = "无效的URL地址" /\
  showPreviewer (showPreview new_URL url s) = true /\
  timers (showPreview new_URL url s) = timers s /\
  nextTimer (showPreview new_URL url s) = nextTimer s /\
  loadTimer (showPreview new_URL url s) = loadTimer s /\
  setSrcTimer (showPreview new_URL url s) = setSrcTimer s /\
  hideTimer (showPreview new_URL url s) = hideTimer s /\
  debounceTimer (showPreview new_URL url s) = debounceTimer s /\
  isLoading (showPreview new_URL url s) = isLoading s /\
  iframeSrc (showPreview new_URL url s) = iframeSrc s /\
  loadedUrls (showPreview new_URL url s) = loadedUrls s /\
  failedUrls (showPreview new_URL url s) = failedUrls s.
Proof.
  intros H. pose proof (isValidUrl_catches new_URL url e H) as Hv.
  unfold showPreview. rewrite Hv. cbn [negb]. fields. repeat split.
Qed.

Lemma invalid_url_witness :
  hasError (showPreview Inputs.new_URL Inputs.notAUrl
              (mount Inputs.notAUrl ∅ ∅ Inputs.desktop)) = true /\
  showPreviewer (showPreview Inputs.new_URL Inputs.notAUrl
                   (mount Inputs.notAUrl ∅ ∅ Inputs.desktop)) = true /\
  nextTimer (showPreview Inputs.new_URL Inputs.notAUrl
               (mount Inputs.notAUrl ∅ ∅ Inputs.desktop))
  = nextTimer (mount Inputs.notAUrl ∅ ∅ Inputs.desktop).
Proof.
  destruct (invalid_url_shows_error Inputs.new_URL Inputs.notAUrl "TypeError: Invalid URL"
              (mount Inputs.notAUrl ∅ ∅ Inputs.desktop))
    as (_ & He & _ & Hs & _ & Hn & _); [reflexivity|].
  split; [exact He|split; [exact Hs|exact Hn]].
Defined.

(** C10: in a window of width 768 or less, a show request with a valid
    URL returns with the state unchanged: the overlay is not shown, no load
    is started.  With an invalid URL the error overlay is shown all the
    same, because the URL is checked before the width. *)
Theorem mobile_gate {URL : Type} (new_URL : string -> result URL) (url : string) (s : t) :
  window.innerWidth (win s) <= 768 ->
  (isValidUrl new_URL url = true -> showPreview new_URL url s = s) /\
  (isValidUrl new_URL url = false ->
   showPreviewer (showPreview new_URL url s) = true /\
   hasError (showPreview new_URL url s) = true /\
   errorMessage (showPreview new_URL url s) = "无效的URL地址").
Proof.
  intros Hw.
  assert (Hm : isMobileDevice s = true).
  { unfold isMobileDevice. destruct (JSFacts.le_spec (window.innerWidth (win s)) 768);
      [reflexivity|contradiction]. }
  unfold showPreview. split; intros ->; cbn [negb].
  - now rewrite Hm.
  - fields. repeat split.
Qed.

Lemma mobile_gate_witness :
  showPreview Inputs.new_URL Inputs.slowUrl (mount Inputs.slowUrl ∅ ∅ Inputs.phone)
  = mount Inputs.slowUrl ∅ ∅ Inputs.phone /\
  showPreviewer (showPreview Inputs.new_URL Inputs.notAUrl
                   (mount Inputs.notAUrl ∅ ∅ Inputs.phone)) = true.
Proof.
  split.
  - apply (mobile_gate Inputs.new_URL Inputs.slowUrl (mount Inputs.slowUrl ∅ ∅ Inputs.phone)).
    + vm_compute. discriminate.
    + reflexivity.
  - apply (mobile_gate Inputs.new_URL Inputs.notAUrl (mount Inputs.notAUrl ∅ ∅ Inputs.phone)).
    + vm_compute. discriminate.
    + reflexivity.
Defined.

End LinkPreviewerSpec.

(** ** Popup.tsx: more on the position *)

Module PopupFacts.
Import Popup.

(** [getResponsiveSize]: the popup is never wider than 400 nor higher than
    300, and in every window the popup and a margin on each side fit in the
    width; on a mobile width they fit in the height as well. *)
Theorem responsive_size_bounds (win : window.t) :
  Size.width (getResponsiveSize win) <= 400 /\
  Size.height (getResponsiveSize win) <= 300 /\
  10 <= Size.margin (getResponsiveSize win) <= 20 /\
  Size.width (getResponsiveSize win) + 2 * Size.margin (getResponsiveSize win)
    <= window.innerWidth win /\
  (window.innerWidth win <= 768 ->
   Size.height (getResponsiveSize win) + 2 * Size.margin (getResponsiveSize win)
     <= window.innerHeight win).
Proof.
  unfold getResponsiveSize. js_cases; cbn [Size.width Size.height Size.margin];
    repeat match goal with
    | |- context [JS.min ?a ?b] =>
        pose proof (JSFacts.min_le_l a b); pose proof (JSFacts.min_le_r a b);
        generalize dependent (JS.min a b); intros
    end; repeat split; intros; lra.
Qed.

Lemma responsive_size_witness :
  Size.height (getResponsiveSize Inputs.phone) + 2 * Size.margin (getResponsiveSize Inputs.phone)
    <= window.innerHeight Inputs.phone.
Proof.
  apply (responsive_size_bounds Inputs.phone). vm_compute. discriminate.
Defined.

(** The boundary tests keep an element anchor's popup a margin away from
    the left and right edges in every window, and from the top and bottom
    edges when the popup height and two margins fit, as long as the flip
    block is not active. *)
Theorem clamp_keeps_margin (p : props.t) (win : window.t) (rect : DOMRect.t) :
  props.target p = Some (Element rect) ->
  flipGuard p = false ->
  Size.margin (getResponsiveSize win) <= Position.x (calculatePosition p win) /\
  Position.x (calculatePosition p win) + Size.width (getResponsiveSize win)
    <= window.innerWidth win - Size.margin (getResponsiveSize win) /\
  (Size.height (getResponsiveSize win) + 2 * Size.margin (getResponsiveSize win)
     <= window.innerHeight win ->
   Size.margin (getResponsiveSize win) <= Position.y (calculatePosition p win) /\
   Position.y (calculatePosition p win) + Size.height (getResponsiveSize win)
     <= window.innerHeight win - Size.margin (getResponsiveSize win)).
Proof.
  intros Ht Hflip.
  pose proof (PopupSpec.margin_pos win) as Hm. pose proof (PopupSpec.width_fits win) as Hw.
  unfold calculatePosition. rewrite Ht, Hflip.
  set (sz := getResponsiveSize win) in *.
  destruct (props.placement p) as [[]|]; cbv zeta;
    js_cases; cbn [Position.x Position.y]; qhalf; repeat split; intros; lra.
Qed.

Lemma clamp_keeps_margin_witness :
  Size.margin (getResponsiveSize Inputs.desktop)
  <= Position.x (calculatePosition
                   (Inputs.onElement Inputs.linkNearBottom Placement.left None None)
                   Inputs.desktop).
Proof.
  destruct (clamp_keeps_margin
              (Inputs.onElement Inputs.linkNearBottom Placement.left None None)
              Inputs.desktop Inputs.linkNearBottom) as (Hx & _); [reflexivity|reflexivity|].
  exact Hx.
Defined.

(** The adjusted flag tells the truth.  For an element anchor, a result
    with adjusted = false carries exactly the coordinates of the placement
    switch (so a side placement touches its anchor edge, shifted by the
    offset); and with the flip block not active, a result with
    adjusted = true differs from them. *)
Theorem adjusted_iff_moved (p : props.t) (win : window.t) (rect : DOMRect.t) :
  props.target p = Some (Element rect) ->
  (Position.adjusted (calculatePosition p win) = Some false ->
   Position.x (calculatePosition p win) = fst (naturalPosition p win rect) /\
   Position.y (calculatePosition p win) = snd (naturalPosition p win rect)) /\
  (flipGuard p = false ->
   Position.adjusted (calculatePosition p win) = Some true ->
   ~ (Position.x (calculatePosition p win) == fst (naturalPosition p win rect) /\
      Position.y (calculatePosition p win) == snd (naturalPosition p win rect))).
Proof.
  intros Ht. pose proof (PopupSpec.margin_pos win) as Hm.
  unfold calculatePosition, naturalPosition, offsetOf. rewrite Ht.
  set (sz := getResponsiveSize win) in *.
  split.
  - destruct (props.placement p) as [[]|]; cbv zeta; destruct (flipGuard p);
      js_cases; cbn [Placement.eqb andb fst snd Position.x Position.y Position.adjusted];
      intros H; try discriminate H; split; reflexivity.
  - intros ->.
    destruct (props.placement p) as [[]|]; cbv zeta;
      js_cases; cbn [fst snd Position.x Position.y Position.adjusted];
      intros H; try discriminate H; intros [Hx Hy]; qhalf; lra.
Qed.

Lemma adjusted_iff_moved_witness :
  Position.y (calculatePosition
                (Inputs.onElement Inputs.linkNearTop Placement.bottom None None)
                Inputs.desktop)
  = snd (naturalPosition (Inputs.onElement Inputs.linkNearTop Placement.bottom None None)
                         Inputs.desktop Inputs.linkNearTop).
Proof.
  destruct (adjusted_iff_moved
              (Inputs.onElement Inputs.linkNearTop Placement.bottom None None)
              Inputs.desktop Inputs.linkNearTop eq_refl) as (Hnat & _).
  apply Hnat. reflexivity.
Defined.

(** The label of the result never records a flip or a clamp: for an
    element anchor it is the requested placement ([bottom] when none is
    requested), for a point [custom], for no anchor [center]. *)
Theorem label_is_requested (p : props.t) (win : window.t) :
  Position.placement (calculatePosition p win) =
    match props.target p with
    | None => Some Placement.center
    | Some (Point _ _) => Some Placement.custom
    | Some (Element _) =>
        Some (match props.placement p with Some pl => pl | None => Placement.bottom end)
    end.
Proof.
  unfold calculatePosition. destruct (props.target p) as [[rect|px py]|]; try reflexivity.
  cbv zeta. destruct (props.placement p) as [[]|]; destruct (flipGuard p);
    js_cases; reflexivity.
Qed.

(** The flip block for [bottom], [left] and [right], with the variant
    tooltip or dropdown and flip on: a placement whose natural position
    crosses its own edge of the safe range is moved to the mirrored side of
    the anchor, with adjusted = true; only the coordinate of that axis is
    replaced. *)
Theorem flip_mirrors (p : props.t) (win : window.t) (rect : DOMRect.t) :
  props.target p = Some (Element rect) ->
  flipGuard p = true ->
  (props.placement p = Some Placement.bottom ->
   window.innerHeight win - Size.margin (getResponsiveSize win)
     < snd (naturalPosition p win rect) + Size.height (getResponsiveSize win) ->
   Position.y (calculatePosition p win)
     = DOMRect.top rect - Size.height (getResponsiveSize win) + snd (offsetOf p) /\
   Position.adjusted (calculatePosition p win) = Some true) /\
  (props.placement p = Some Placement.left ->
   fst (naturalPosition p win rect) < Size.margin (getResponsiveSize win) ->
   Position.x (calculatePosition p win) = DOMRect.right rect + fst (offsetOf p) /\
   Position.adjusted (calculatePosition p win) = Some true) /\
  (props.placement p = Some Placement.right ->
   window.innerWidth win - Size.margin (getResponsiveSize win)
     < fst (naturalPosition p win rect) + Size.width (getResponsiveSize win) ->
   Position.x (calculatePosition p win)
     = DOMRect.left rect - Size.width (getResponsiveSize win) + fst (offsetOf p) /\
   Position.adjusted (calculatePosition p win) = Some true).
Proof.
  intros Ht Hg. pose proof (PopupSpec.margin_pos win) as Hm.
  unfold calculatePosition, naturalPosition, offsetOf. rewrite Ht, Hg.
  set (sz := getResponsiveSize win) in *.
  split; [|split]; intros Hp; rewrite Hp; cbv zeta; cbn [fst snd];
    intros Hn; js_cases;
    cbn [Placement.eqb andb fst snd Position.x Position.y Position.adjusted];
    try (split; reflexivity); exfalso; lra.
Qed.

Lemma flip_mirrors_witness :
  Position.y (calculatePosition
                (Inputs.onElement Inputs.linkNearBottom Placement.bottom
                                  (Some Variant.dropdown) (Some true))
                Inputs.desktop)
  = DOMRect.top Inputs.linkNearBottom - Size.height (getResponsiveSize Inputs.desktop)
    + snd (offsetOf (Inputs.onElement Inputs.linkNearBottom Placement.bottom
                                      (Some Variant.dropdown) (Some true))).
Proof.
  destruct (flip_mirrors
              (Inputs.onElement Inputs.linkNearBottom Placement.bottom
                                (Some Variant.dropdown) (Some true))
              Inputs.desktop Inputs.linkNearBottom eq_refl eq_refl) as (Hb & _).
  apply Hb; [reflexivity|]. vm_compute. reflexivity.
Defined.

End PopupFacts.

(** ** Popup.tsx: the rendered style *)

Module PopupViewFacts.
Import PopupView.

Lemma spreadIf_absorbed (key : string) (m : gmap string value) :
  spreadIf key (m !! key) ∪ m = m.
Proof.
  unfold spreadIf. destruct (m !! key) as [x|] eqn:E.
  - destruct (truthy (Some x)).
    + apply map_eq. intros k. destruct (decide (k = key)) as [->|Hne].
      * rewrite lookup_union_l'; rewrite lookup_singleton_eq; [now rewrite E|eauto].
      * rewrite lookup_union_r; [reflexivity|]. now apply lookup_singleton_ne.
    + apply (left_id ∅ (∪)).
  - apply (left_id ∅ (∪)).
Qed.

(** An object style is merged in three layers: the base style, over it
    the caller's entries, over both the hiding entries.  The conditional
    spreads of [width] and [height] never change the result.  So every entry
    of the caller that is not a hiding entry reaches the element, also
    [left] and [top], which then replace the computed position. *)
Theorem object_style_layers (p : props.t) (win : window.t) (st : t)
    (customStyle : gmap string value) :
  props.style p = Some (inr customStyle) ->
  computedStyle p win st = inr (displayStyle p st ∪ (customStyle ∪ baseStyle p win st)) /\
  (forall k v m, computedStyle p win st = inr m ->
                 customStyle !! k = Some v -> displayStyle p st !! k = None ->
                 m !! k = Some v).
Proof.
  intros Hs.
  assert (E : computedStyle p win st
              = inr (displayStyle p st ∪ (customStyle ∪ baseStyle p win st))).
  { assert (Ha : forall key, spreadIf key (customStyle !! key)
                                ∪ (customStyle ∪ baseStyle p win st)
                              = customStyle ∪ baseStyle p win st).
    { intros key. rewrite (assoc_L (∪)). now rewrite spreadIf_absorbed. }
    unfold computedStyle, spread. rewrite Hs. now rewrite !Ha. }
  split; [exact E|].
  intros k v m Hm Hk Hd. rewrite E in Hm. injection Hm as <-.
  rewrite lookup_union_r by exact Hd. now rewrite lookup_union_l' by eauto.
Qed.

Lemma object_style_witness :
  computedStyle
    {| props.show := true; props.destroyOnHide := None; props.strategy := None;
       props.zIndex := None;
       props.style := Some (@inr string (gmap string value) {[ "left"%string := Px 5 ]}) |}
    Inputs.desktop
    {| position := Popup.calculatePosition Inputs.atPointer Inputs.desktop;
       isReady := true |}
  = inr (displayStyle
           {| props.show := true; props.destroyOnHide := None; props.strategy := None;
              props.zIndex := None;
              props.style :=
                Some (@inr string (gmap string value) {[ "left"%string := Px 5 ]}) |}
           {| position := Popup.calculatePosition Inputs.atPointer Inputs.desktop;
              isReady := true |}
         ∪ ({[ "left"%string := Px 5 ]}
            ∪ baseStyle
                {| props.show := true; props.destroyOnHide := None; props.strategy := None;
                   props.zIndex := None;
                   props.style :=
                     Some (@inr string (gmap string value) {[ "left"%string := Px 5 ]}) |}
                Inputs.desktop
                {| position := Popup.calculatePosition Inputs.atPointer Inputs.desktop;
                   isReady := true |})).
Proof.
  destruct (object_style_layers
              {| props.show := true; props.destroyOnHide := None; props.strategy := None;
                 props.zIndex := None;
                 props.style :=
                   Some (@inr string (gmap string value) {[ "left"%string := Px 5 ]}) |}
              Inputs.desktop
              {| position := Popup.calculatePosition Inputs.atPointer Inputs.desktop;
                 isReady := true |}
              {[ "left"%string := Px 5 ]} eq_refl) as [H _].
  exact H.
Defined.

Lemma concealed_entries (p : props.t) (st : t) :
  concealed p st = true ->
  displayStyle p st !! "visibility" = Some (Text "hidden") /\
  displayStyle p st !! "opacity" = Some (Num 0) /\
  displayStyle p st !! "pointer-events" = Some (Text "none").
Proof. intros H. unfold displayStyle. rewrite H. repeat split; reflexivity. Qed.

(** A popup that is rendered while [show] is false (which needs
    [destroyOnHide === false]) is always hidden, whatever the ready flag and
    whatever the caller's style: a string style gets the three hiding rules
    appended, an object style has [visibility], [opacity] and
    [pointer-events] set to the hiding values over the caller's own. *)
Theorem rendered_unshown_is_hidden (p : props.t) (win : window.t) (st : t) :
  shouldRender p = true ->
  props.show p = false ->
  match computedStyle p win st with
  | inl str =>
      exists s0, props.style p = Some (inl s0) /\
        str = (s0 ++ "; visibility: hidden !important; opacity: 0 !important; pointer-events: none !important;")%string
  | inr m =>
      m !! "visibility" = Some (Text "hidden") /\
      m !! "opacity" = Some (Num 0) /\
      m !! "pointer-events" = Some (Text "none")
  end.
Proof.
  intros Hr Hs.
  assert (Hc : concealed p st = true).
  { unfold concealed, shouldRender in *. rewrite Hs in *.
    destruct (props.destroyOnHide p) as [[]|]; try discriminate. reflexivity. }
  destruct (concealed_entries p st Hc) as (Hv & Ho & Hp).
  unfold computedStyle, spread. destruct (props.style p) as [[str|customStyle]|].
  - rewrite Hc. eauto.
  - repeat split; now apply lookup_union_Some_l.
  - repeat split; now apply lookup_union_Some_l.
Qed.

Lemma rendered_unshown_witness :
  exists s0,
    Some (@inl string (gmap string value) "width: 384px"%string) = Some (inl s0) /\
    ("width: 384px" ++ "; visibility: hidden !important; opacity: 0 !important; pointer-events: none !important;")%string
    = (s0 ++ "; visibility: hidden !important; opacity: 0 !important; pointer-events: none !important;")%string.
Proof.
  exact (rendered_unshown_is_hidden
           {| props.show := false; props.destroyOnHide := Some false;
              props.strategy := None; props.zIndex := None;
              props.style := Some (@inl string (gmap string value) "width: 384px"%string) |}
           Inputs.desktop
           {| position := Popup.calculatePosition Inputs.atPointer Inputs.desktop;
              isReady := true |} eq_refl eq_refl).
Defined.

(** After the effect on [show] has run, the popup is concealed exactly
    when it is not shown, and a shown popup carries the position that
    [calculatePosition] gives for the current window. *)
Lemma effect_sets_ready (pp : Popup.props.t) (win : window.t) (p : props.t) (st : t) :
  concealed p (onShowChange pp win (props.show p) st) = negb (props.show p) /\
  (props.show p = true ->
   position (onShowChange pp win (props.show p) st) = Popup.calculatePosition pp win).
Proof.
  unfold concealed, onShowChange.
  destruct (props.show p); destruct (props.destroyOnHide p) as [[]|]; cbn;
    split; auto; discriminate.
Qed.

End PopupViewFacts.

(** ** LinkPreviewer.tsx: timers along a run *)

Module LinkPreviewerFacts.
Import LinkPreviewer.

Ltac handlers :=
  unfold step, runCallback, showPreview, loadPreview, loadPreviewContent,
    handleIframeLoad, handleIframeError, handleMouseEnter, handleMouseLeave,
    handlePopupMouseEnter, handlePopupMouseLeave, cleanup, setTimeout, clearTimeout in *.

Ltac branches :=
  repeat match goal with
  | |- context [if ?b then _ else _] => destruct b eqn:?
  | |- context [match ?o with Some _ => _ | None => _ end] => destruct o eqn:?
  end.

(** A lookup in a timer table after insertions and deletions. *)
Ltac timer_lookup :=
  repeat match goal with
  | H : (<[_ := _]> _) !! _ = Some _ |- _ =>
      apply lookup_insert_Some in H; destruct H as [[? ?]|[? H]]; subst
  | H : (delete _ _) !! _ = Some _ |- _ =>
      apply lookup_delete_Some in H; destruct H as [? H]
  end.

(** A show request starts no debounce timer and keeps the handle. *)
Lemma showPreview_debounce {URL : Type} (new_URL : string -> result URL) (url : string)
    (s : t) :
  debounceTimer (showPreview new_URL url s) = debounceTimer s /\
  (forall id d, timers (showPreview new_URL url s) !! id = Some (CbShowPreview, d) ->
                timers s !! id = Some (CbShowPreview, d)).
Proof.
  handlers. branches; LinkPreviewerSpec.fields; split; auto; intros id d H;
    timer_lookup; try discriminate; auto.
Qed.

(** Every step keeps [oneDebounce]. *)
Lemma step_oneDebounce {URL : Type} (new_URL : string -> result URL) (url : string)
    (s : t) (e : event) :
  oneDebounce s -> oneDebounce (step new_URL url s e).
Proof.
  intros Hinv. destruct e; cbn [step].
  - handlers. branches; LinkPreviewerSpec.fields; intros i d H; LinkPreviewerSpec.fields;
      timer_lookup; try discriminate; auto;
      apply Hinv in H; congruence.
  - handlers. branches; LinkPreviewerSpec.fields; intros i d H; LinkPreviewerSpec.fields;
      timer_lookup; try discriminate; eauto.
  - handlers. branches; LinkPreviewerSpec.fields; intros i d H; LinkPreviewerSpec.fields;
      timer_lookup; try discriminate; eauto.
  - handlers. branches; LinkPreviewerSpec.fields; intros i d H; LinkPreviewerSpec.fields;
      timer_lookup; try discriminate; eauto.
  - destruct (timers s !! id) as [[cb d0]|] eqn:E; [|exact Hinv].
    destruct cb; cbn [runCallback].
    + intros i d H.
      destruct (showPreview_debounce new_URL url (set_timers (delete id (timers s)) s))
        as (Hd & Ht).
      rewrite Hd. apply Ht in H. LinkPreviewerSpec.fields. timer_lookup. eauto.
    + intros i d H. LinkPreviewerSpec.fields. timer_lookup. eauto.
    + handlers. intros i d H. LinkPreviewerSpec.fields. timer_lookup; try discriminate. eauto.
    + intros i d H. LinkPreviewerSpec.fields. timer_lookup. eauto.
  - handlers. branches; LinkPreviewerSpec.fields; intros i d H; LinkPreviewerSpec.fields;
      timer_lookup; try discriminate; eauto.
  - handlers. branches; LinkPreviewerSpec.fields; intros i d H; LinkPreviewerSpec.fields;
      timer_lookup; try discriminate; eauto.
  - intros i d H. LinkPreviewerSpec.fields. eauto.
  - handlers. branches; LinkPreviewerSpec.fields; intros i d H; LinkPreviewerSpec.fields;
      timer_lookup; try discriminate; eauto.
Qed.

Lemma run_oneDebounce {URL : Type} (new_URL : string -> result URL) (url : string)
    (tr : list event) : forall s : t,
  oneDebounce s -> oneDebounce (run new_URL url s tr).
Proof.
  induction tr as [|e tr IH]; intros s Hs; [exact Hs|].
  apply (IH (step new_URL url s e)). now apply step_oneDebounce.
Qed.

(** Debounce.  Along every run of a component from its creation on (the
    load event at mount is one of the events of the run) at most one timer
    that will call [showPreview] is pending, the one [debounceTimer] names;
    and when the pointer leaves the link, enters the popup, or the component
    is cleaned up, none is left: a hover that ends before the 200 ms are
    over never shows the preview. *)
Theorem debounce_cancelled {URL : Type} (new_URL : string -> result URL) (url : string)
    (loaded failed : gset string) (w : window.t) (tr : list event) (e : event) :
  oneDebounce (run new_URL url (create loaded failed w) tr) /\
  (e = MouseLeave \/ e = PopupMouseEnter \/ e = Cleanup ->
   noShowPending (run new_URL url (create loaded failed w) (tr ++ [e]))).
Proof.
  assert (Hinv : oneDebounce (run new_URL url (create loaded failed w) tr)).
  { apply run_oneDebounce. intros id d H. cbn in H. now rewrite lookup_empty in H. }
  split; [exact Hinv|].
  intros He. unfold run in *. rewrite fold_left_app. cbn [fold_left].
  set (s := fold_left (step new_URL url) tr (create loaded failed w)) in *.
  intros id d H. destruct He as [-> | [-> | ->]]; cbn [step] in H; handlers;
    repeat match type of H with
    | context [match ?o with Some _ => _ | None => _ end] => destruct o eqn:?
    end; LinkPreviewerSpec.fields; timer_lookup; try discriminate;
    match goal with
    | Hd : debounceTimer s = _ |- _ => apply Hinv in H; congruence
    end.
Qed.

Lemma debounce_cancelled_witness :
  noShowPending (run Inputs.new_URL Inputs.slowUrl (create ∅ ∅ Inputs.desktop)
                     ([IframeLoad; MouseEnter] ++ [MouseLeave])).
Proof.
  apply (debounce_cancelled Inputs.new_URL Inputs.slowUrl ∅ ∅ Inputs.desktop
           [IframeLoad; MouseEnter] MouseLeave).
  left. reflexivity.
Defined.

Lemma handlePopupMouseEnter_clears (s : t) (h : nat) :
  hideTimer s = Some h ->
  timers (handlePopupMouseEnter s) !! h = None /\
  showPreviewer (handlePopupMouseEnter s) = true.
Proof.
  intros Hh. unfold handlePopupMouseEnter, clearTimeout. rewrite Hh.
  LinkPreviewerSpec.fields. destruct (debounceTimer s) as [n|]; LinkPreviewerSpec.fields.
  - split; [|reflexivity]. destruct (decide (n = h)) as [->|Hne].
    + apply lookup_delete_eq.
    + rewrite lookup_delete_ne by congruence. apply lookup_delete_eq.
  - split; [|reflexivity]. apply lookup_delete_eq.
Qed.

(** Moving from the link into the popup: the hide timer that
    [handleMouseLeave] starts is pending with the hide delay; entering the
    popup clears it and shows the popup, and the timer coming due afterwards
    does nothing. *)
Theorem popup_enter_cancels_hide {URL : Type} (new_URL : string -> result URL)
    (url : string) (s : t) :
  hideTimer (step new_URL url s MouseLeave) = Some (nextTimer s) /\
  timers (step new_URL url s MouseLeave) !! nextTimer s = Some (CbHide, HIDE_DELAY) /\
  timers (run new_URL url s [MouseLeave; PopupMouseEnter]) !! nextTimer s = None /\
  showPreviewer (run new_URL url s [MouseLeave; PopupMouseEnter]) = true /\
  run new_URL url s [MouseLeave; PopupMouseEnter; TimerFires (nextTimer s)]
    = run new_URL url s [MouseLeave; PopupMouseEnter].
Proof.
  cbn [run fold_left].
  assert (H1 : hideTimer (step new_URL url s MouseLeave) = Some (nextTimer s) /\
               timers (step new_URL url s MouseLeave) !! nextTimer s
                 = Some (CbHide, HIDE_DELAY)).
  { cbn [step]. handlers. branches; LinkPreviewerSpec.fields;
      split; auto; apply lookup_insert_eq. }
  destruct H1 as (Hh & Ht).
  destruct (handlePopupMouseEnter_clears (step new_URL url s MouseLeave) (nextTimer s) Hh)
    as (Hnone & Hshow).
  repeat split; auto.
  change (step new_URL url (step new_URL url s MouseLeave) PopupMouseEnter)
    with (handlePopupMouseEnter (step new_URL url s MouseLeave)).
  set (s2 := handlePopupMouseEnter (step new_URL url s MouseLeave)) in *.
  cbn [step]. now rewrite Hnone.
Qed.

(** A load or error event clears the load timeout the handle names: the
    timeout can no longer fire, so it cannot mark a loaded URL as failed or
    overwrite the message of an error. *)
Theorem outcome_cancels_timeout {URL : Type} (new_URL : string -> result URL)
    (url : string) (s : t) (id : nat) :
  loadTimer s = Some id ->
  (timers (step new_URL url s IframeLoad) !! id = None /\
   isLoading (step new_URL url s IframeLoad) = false /\
   hasError (step new_URL url s IframeLoad) = false /\
   url ∈ loadedUrls (step new_URL url s IframeLoad) /\
   step new_URL url (step new_URL url s IframeLoad) (TimerFires id)
     = step new_URL url s IframeLoad) /\
  (timers (step new_URL url s IframeError) !! id = None /\
   isLoading (step new_URL url s IframeError) = false /\
   hasError (step new_URL url s IframeError) = true /\
   url ∈ failedUrls (step new_URL url s IframeError) /\
   step new_URL url (step new_URL url s IframeError) (TimerFires id)
     = step new_URL url s IframeError).
Proof.
  intros Hl.
  assert (Hload : timers (handleIframeLoad url s) !! id = None).
  { unfold handleIframeLoad, clearTimeout. rewrite Hl. LinkPreviewerSpec.fields.
    apply lookup_delete_eq. }
  assert (Herr : timers (handleIframeError url s) !! id = None).
  { unfold handleIframeError, clearTimeout. rewrite Hl. LinkPreviewerSpec.fields.
    apply lookup_delete_eq. }
  split.
  - change (step new_URL url s IframeLoad) with (handleIframeLoad url s).
    repeat split; auto.
    + unfold handleIframeLoad. LinkPreviewerSpec.fields. set_solver.
    + set (s' := handleIframeLoad url s) in *. cbn [step]. now rewrite Hload.
  - change (step new_URL url s IframeError) with (handleIframeError url s).
    repeat split; auto.
    + unfold handleIframeError. LinkPreviewerSpec.fields. set_solver.
    + set (s' := handleIframeError url s) in *. cbn [step]. now rewrite Herr.
Qed.

Lemma outcome_cancels_timeout_witness :
  timers (step Inputs.new_URL Inputs.slowUrl
            (run Inputs.new_URL Inputs.slowUrl (create ∅ ∅ Inputs.desktop)
                 [MouseEnter; TimerFires 0; TimerFires 1])
            IframeLoad) !! 2%nat = None.
Proof.
  assert (Hl : loadTimer (run Inputs.new_URL Inputs.slowUrl (create ∅ ∅ Inputs.desktop)
                               [MouseEnter; TimerFires 0; TimerFires 1]) = Some 2%nat)
    by (vm_compute; reflexivity).
  destruct (outcome_cancels_timeout Inputs.new_URL Inputs.slowUrl
              (run Inputs.new_URL Inputs.slowUrl (create ∅ ∅ Inputs.desktop)
                   [MouseEnter; TimerFires 0; TimerFires 1]) 2 Hl)
    as ((H & _) & _).
  exact H.
Defined.

(** A component only ever writes its own URL: for any other URL,
    membership in either cache is the same after any run. *)
Theorem other_urls_untouched {URL : Type} (new_URL : string -> result URL) (url u : string)
    (tr : list event) : forall s : t,
  u <> url ->
  (u ∈ loadedUrls (run new_URL url s tr) <-> u ∈ loadedUrls s) /\
  (u ∈ failedUrls (run new_URL url s tr) <-> u ∈ failedUrls s).
Proof.
  induction tr as [|e tr IH]; intros s Hne; [split; reflexivity|].
  destruct (IH (step new_URL url s e) Hne) as [Hl Hf]. unfold run in *. cbn [fold_left].
  destruct (LinkPreviewerSpec.step_caches new_URL url s e) as [[El Ef]|[[El Ef]|[El Ef]]];
    rewrite El in Hl; rewrite Ef in Hf; split; set_solver.
Qed.

Lemma other_urls_witness :
  Inputs.notAUrl ∈ loadedUrls
    (run Inputs.new_URL Inputs.slowUrl Inputs.knownGood Inputs.failedPreview)
  <-> Inputs.notAUrl ∈ loadedUrls Inputs.knownGood.
Proof.
  apply (other_urls_untouched Inputs.new_URL Inputs.slowUrl Inputs.notAUrl
           Inputs.failedPreview Inputs.knownGood).
  intros H. vm_compute in H. discriminate.
Defined.

(** The first hover on a mounted component, for a valid URL and a window
    wider than 768, whatever the caches held at creation: the pointer enters
    the link and the debounce timer (id 0) fires.  The show request finds the
    URL in the success cache, where the load event at mount has put it, and
    puts it in the iframe at once: the preview is shown without loading or
    error state, and no timer is pending; neither the 100 ms source timer nor
    the load timeout was started. *)
Theorem first_hover_uses_cache {URL : Type} (new_URL : string -> result URL)
    (url : string) (loaded failed : gset string) (w : window.t) :
  isValidUrl new_URL url = true ->
  768 < window.innerWidth w ->
  run new_URL url (mount url loaded failed w) [MouseEnter; TimerFires 0] =
  {| showPreviewer := true; isLoading := false; hasError := false;
     errorMessage := EmptyString; iframeSrc := url;
     debounceTimer := Some 0%nat; hideTimer := None; loadTimer := None;
     setSrcTimer := None;
     loadedUrls := {[url]} ∪ loaded; failedUrls := failed;
     win := w; timers := ∅; nextTimer := 1 |}.
Proof.
  intros Hv Hw.
  assert (Hmob : JS.le (window.innerWidth w) 768 = false).
  { destruct (JSFacts.le_spec (window.innerWidth w) 768); [lra|reflexivity]. }
  assert (Hin : url ∈ ({[url]} ∪ loaded : gset string)) by set_solver.
  unfold run. cbn [fold_left]. unfold step at 2.
  unfold handleMouseEnter, mount, handleIframeLoad, create, clearTimeout, setTimeout.
  LinkPreviewerSpec.fields.
  unfold step. LinkPreviewerSpec.fields. rewrite lookup_insert_eq.
  cbn [runCallback]. unfold showPreview. rewrite Hv. cbn [negb].
  unfold isMobileDevice. LinkPreviewerSpec.fields. rewrite Hmob.
  unfold clearTimeout. LinkPreviewerSpec.fields.
  unfold loadPreview. LinkPreviewerSpec.fields.
  rewrite delete_insert_eq, delete_empty.
  destruct (String.eqb EmptyString url) eqn:Esrc; cbn [andb negb].
  - apply String.eqb_eq in Esrc. now rewrite <- Esrc.
  - rewrite (bool_decide_eq_true_2 _ Hin). LinkPreviewerSpec.fields. reflexivity.
Qed.

Lemma first_hover_witness :
  run Inputs.new_URL Inputs.slowUrl (mount Inputs.slowUrl ∅ ∅ Inputs.desktop)
      [MouseEnter; TimerFires 0] =
  {| showPreviewer := true; isLoading := false; hasError := false;
     errorMessage := EmptyString; iframeSrc := Inputs.slowUrl;
     debounceTimer := Some 0%nat; hideTimer := None; loadTimer := None;
     setSrcTimer := None;
     loadedUrls := {[Inputs.slowUrl]} ∪ ∅; failedUrls := ∅;
     win := Inputs.desktop; timers := ∅; nextTimer := 1 |}.
Proof.
  apply (first_hover_uses_cache Inputs.new_URL Inputs.slowUrl ∅ ∅ Inputs.desktop).
  - reflexivity.
  - vm_compute. reflexivity.
Defined.

Lemma run_failed_only_by_error {URL : Type} (new_URL : string -> result URL)
    (url : string) (tr : list event) : forall s : t,
  primed url s -> ~ In IframeError tr ->
  failedUrls (run new_URL url s tr) = failedUrls s.
Proof.
  induction tr as [|e tr IH]; intros s Hp Hno; [reflexivity|].
  unfold run in *. cbn [fold_left].
  rewrite (IH (step new_URL url s e)).
  - apply LinkPreviewerSpec.failed_only_by_error; [exact Hp|].
    intros ->. apply Hno. now left.
  - now apply LinkPreviewerSpec.step_primed.
  - intros H. apply Hno. now right.
Qed.

(** The load path is dead.  After any run of a mounted component the URL
    is in the success cache, so no show request reaches
    [loadPreviewContent]: the handles [setSrcTimer] and [loadTimer] are still
    undefined, no source timer and no load timeout is pending, the loading
    state is off and the timeout message is not set.  The failure cache is
    written by an error event of the iframe only: a run without one leaves it
    as it was at creation. *)
Theorem load_timeout_never_armed {URL : Type} (new_URL : string -> result URL)
    (url : string) (loaded failed : gset string) (w : window.t) (tr : list event) :
  url ∈ loadedUrls (run new_URL url (mount url loaded failed w) tr) /\
  setSrcTimer (run new_URL url (mount url loaded failed w) tr) = None /\
  loadTimer (run new_URL url (mount url loaded failed w) tr) = None /\
  (forall (id : nat) (d : Q),
     timers (run new_URL url (mount url loaded failed w) tr) !! id <> Some (CbSetSrc, d) /\
     timers (run new_URL url (mount url loaded failed w) tr) !! id
       <> Some (CbLoadTimeout, d)) /\
  isLoading (run new_URL url (mount url loaded failed w) tr) = false /\
  errorMessage (run new_URL url (mount url loaded failed w) tr)
    <> "加载超时，请稍后重试"%string /\
  (~ In IframeError tr ->
   failedUrls (run new_URL url (mount url loaded failed w) tr) = failed).
Proof.
  pose proof (LinkPreviewerSpec.mount_primed url loaded failed w) as Hm.
  destruct (LinkPreviewerSpec.run_primed new_URL url tr _ Hm)
    as (Hin & Hl & Hs & Hload & Hsrc & Hto & Hm1 & _).
  repeat split; auto.
  intros Hno. now rewrite (run_failed_only_by_error new_URL url tr _ Hm Hno).
Qed.

Lemma load_timeout_never_armed_witness :
  failedUrls (run Inputs.new_URL Inputs.slowUrl (mount Inputs.slowUrl ∅ ∅ Inputs.desktop)
                  [MouseEnter; TimerFires 0; IframeLoad; MouseLeave; TimerFires 1])
  = ∅.
Proof.
  destruct (load_timeout_never_armed Inputs.new_URL Inputs.slowUrl ∅ ∅ Inputs.desktop
              [MouseEnter; TimerFires 0; IframeLoad; MouseLeave; TimerFires 1])
    as (_ & _ & _ & _ & _ & _ & H).
  apply H. intros Hin. repeat (destruct Hin as [Hin|Hin]; [discriminate|]). exact Hin.
Defined.

(** A cached failure is never reported.  After any run of a mounted
    component, error events included, a show request with a valid URL in a
    window wider than 768 shows the preview with the URL in the iframe and
    neither error nor loading state, starts no timer, and does not set the
    message of a cached failure: the test of the failure cache is never
    reached, because the success cache is tested first and holds the URL. *)
Theorem cached_failure_never_reported {URL : Type} (new_URL : string -> result URL)
    (url : string) (loaded failed : gset string) (w : window.t) (tr : list event) :
  isValidUrl new_URL url = true ->
  isMobileDevice (run new_URL url (mount url loaded failed w) tr) = false ->
  showPreviewer (showPreview new_URL url (run new_URL url (mount url loaded failed w) tr))
    = true /\
  hasError (showPreview new_URL url (run new_URL url (mount url loaded failed w) tr))
    = false /\
  isLoading (showPreview new_URL url (run new_URL url (mount url loaded failed w) tr))
    = false /\
  iframeSrc (showPreview new_URL url (run new_URL url (mount url loaded failed w) tr))
    = url /\
  nextTimer (showPreview new_URL url (run new_URL url (mount url loaded failed w) tr))
    = nextTimer (run new_URL url (mount url loaded failed w) tr) /\
  errorMessage (showPreview new_URL url (run new_URL url (mount url loaded failed w) tr))
    <> "之前加载失败，可能是跨域限制或网络问题"%string.
Proof.
  intros Hv Hmob.
  pose proof (LinkPreviewerSpec.mount_primed url loaded failed w) as Hm.
  pose proof (LinkPreviewerSpec.run_primed new_URL url tr _ Hm) as Hp.
  set (s := run new_URL url (mount url loaded failed w) tr) in *.
  destruct (LinkPreviewerSpec.showPreview_primed new_URL url s Hp)
    as (_ & _ & _ & Hload' & _ & _ & _ & Hmsg').
  destruct Hp as (Hin & Hl & Hs & Hload & Hsrc & Hto & Hm1 & Hm2).
  split; [|split; [|split; [exact Hload'|split; [|split; [|exact Hmsg']]]]].
  all: unfold showPreview, loadPreview, clearTimeout; rewrite Hv, Hmob; cbn [negb].
  all: destruct (hideTimer s) as [h|]; LinkPreviewerSpec.fields.
  all: destruct (String.eqb (iframeSrc s) url && negb (hasError s)) eqn:Ec;
       LinkPreviewerSpec.fields.
  all: try rewrite (bool_decide_eq_true_2 _ Hin); LinkPreviewerSpec.fields.
  all: try reflexivity.
  all: apply andb_prop in Ec as [E1 E2]; apply String.eqb_eq in E1;
       apply negb_true_iff in E2; auto.
Qed.

Lemma cached_failure_never_reported_witness :
  hasError (showPreview Inputs.new_URL Inputs.slowUrl
              (run Inputs.new_URL Inputs.slowUrl (mount Inputs.slowUrl ∅ ∅ Inputs.desktop)
                   (Inputs.failedPreview ++ [MouseLeave; TimerFires 1])))
  = false.
Proof.
  destruct (cached_failure_never_reported Inputs.new_URL Inputs.slowUrl ∅ ∅ Inputs.desktop
              (Inputs.failedPreview ++ [MouseLeave; TimerFires 1]))
    as (_ & H & _).
  - reflexivity.
  - vm_compute. reflexivity.
  - exact H.
Defined.

End LinkPreviewerFacts.

(** ** The animation manager: hide, presets and completion *)

Module AnimationManagerFacts.
Import AnimationManager.

(** A [hide] while exiting or exited returns at once. *)
Lemma hide_noop m :
  animationState m = exiting \/ animationState m = exited -> hide m = m.
Proof. intros [H | H]; unfold hide; now rewrite H. Qed.

(** [hide] is idempotent, like [show]: while the state is ['exiting'] or
    ['exited'] it returns without doing anything, two calls in a row are one
    call, and on an entered manager (or one still entering) they start
    exactly one exit sequence. *)
Theorem hide_twice_exits_once (m : t) :
  (animationState m = exiting \/ animationState m = exited -> hide m = m) /\
  hide (hide m) = hide m /\
  (animationState m = entered \/ animationState m = entering ->
   animationState (hide m) = exiting /\ exits (hide (hide m)) = S (exits m)).
Proof.
  assert (Hhh : hide (hide m) = hide m).
  { destruct (animationState m) eqn:E.
    - apply hide_noop. left. apply (AnimationManagerSpec.hide_starts m). now right.
    - apply hide_noop. left. apply (AnimationManagerSpec.hide_starts m). now left.
    - now rewrite !(hide_noop m (or_introl E)).
    - now rewrite !(hide_noop m (or_intror E)). }
  split; [apply hide_noop|]. split; [exact Hhh|].
  intros Hs. destruct (AnimationManagerSpec.hide_starts m Hs) as (Hst & Hw).
  split; [exact Hst|]. rewrite Hhh. unfold exits.
  rewrite Hw, List.filter_app, List.length_app. cbn. lia.
Qed.

Lemma hide_twice_witness :
  animationState (hide (run (create (Inputs.fade None)) [CallShow; NativeEnd])) = exiting /\
  exits (hide (hide (run (create (Inputs.fade None)) [CallShow; NativeEnd])))
  = S (exits (run (create (Inputs.fade None)) [CallShow; NativeEnd])).
Proof.
  apply (hide_twice_exits_once (run (create (Inputs.fade None)) [CallShow; NativeEnd])).
  left. reflexivity.
Defined.

Lemma none_applies_nothing (m : t) :
  options.animationClass (opts m) = None ->
  options.animationNone (opts m) = true ->
  applyEnterClasses m = m /\ applyEnterActiveClasses m = m /\
  applyExitClasses m = m /\ applyExitActiveClasses m = m.
Proof.
  intros Hc Hn.
  unfold applyEnterClasses, applyEnterActiveClasses, applyExitClasses,
    applyExitActiveClasses, getAnimationPreset.
  rewrite Hc, Hn. cbn. auto.
Qed.

(** With animation ['none'] and no custom classes, [show] and [hide]
    change no class of the element, they only read [offsetHeight]; but they
    are not immediate: each still leaves the state ['entering'] or
    ['exiting'] behind a promise that waits for an end event or for the
    fallback timer. *)
Theorem none_changes_no_class (m : t) :
  options.animationClass (opts m) = None ->
  options.animationNone (opts m) = true ->
  (animationState m = exited \/ animationState m = exiting ->
   effects (show m) = effects m ++ [ReadOffsetHeight] /\
   animationState (show m) = entering /\
   exists w, latestWait (show m) = Some w /\ Wait.resolved w = false /\
             Wait.delay w = JS.or_default (options.duration (opts m)) 300) /\
  (animationState m = entered \/ animationState m = entering ->
   effects (hide m) = effects m ++ [ReadOffsetHeight] /\
   animationState (hide m) = exiting /\
   exists w, latestWait (hide m) = Some w /\ Wait.resolved w = false /\
             Wait.delay w = JS.or_default (options.duration (opts m)) 300).
Proof.
  intros Hc Hn. split; intros Hs.
  - destruct (AnimationManagerSpec.show_starts m Hs) as (Hst & Hw).
    split; [|split; [exact Hst|]].
    + assert (Hgo : match animationState m with exited | exiting => True | _ => False end)
        by (destruct Hs as [-> | ->]; exact I).
      unfold show. destruct (animationState m); try contradiction;
        rewrite (proj1 (none_applies_nothing (setState entering m) Hc Hn));
        rewrite (proj1 (proj2 (none_applies_nothing
                                 (emit [ReadOffsetHeight] (setState entering m)) Hc Hn)));
        reflexivity.
    + eexists. split;
        [unfold latestWait; rewrite Hw, List.map_app; cbn [List.map]; apply List.last_last
        |split; reflexivity].
  - destruct (AnimationManagerSpec.hide_starts m Hs) as (Hst & Hw).
    split; [|split; [exact Hst|]].
    + assert (Hgo : match animationState m with entered | entering => True | _ => False end)
        by (destruct Hs as [-> | ->]; exact I).
      unfold hide. destruct (animationState m); try contradiction;
        rewrite (proj1 (proj2 (proj2 (none_applies_nothing (setState exiting m) Hc Hn))));
        rewrite (proj2 (proj2 (proj2 (none_applies_nothing
                                        (emit [ReadOffsetHeight] (setState exiting m))
                                        Hc Hn))));
        reflexivity.
    + eexists. split;
        [unfold latestWait; rewrite Hw, List.map_app; cbn [List.map]; apply List.last_last
        |split; reflexivity].
Qed.

Lemma none_witness :
  effects (show (create {| options.animationClass := None;
                           options.animationNone := true;
                           options.presetAnimation :=
                             options.presetAnimation (Inputs.fade None);
                           options.duration := None |}))
  = [ReadOffsetHeight].
Proof.
  destruct (none_changes_no_class
              (create {| options.animationClass := None;
                         options.animationNone := true;
                         options.presetAnimation :=
                           options.presetAnimation (Inputs.fade None);
                         options.duration := None |}) eq_refl eq_refl) as (Hshow & _).
  destruct Hshow as (He & _); [left; reflexivity|]. exact He.
Defined.

(** Events on a promise that is already resolved leave the state alone. *)
Lemma resolved_inert (w : Wait.t) (st : AnimationState) :
  Wait.resolved w = true ->
  snd (handleAnimationEnd w st) = st /\ snd (timerFires w st) = st /\
  Wait.resolved (fst (handleAnimationEnd w st)) = true /\
  Wait.resolved (fst (timerFires w st)) = true.
Proof.
  intros Hr. unfold handleAnimationEnd, timerFires, resolve.
  destruct (Wait.listening w), (Wait.timerPending w); cbn; rewrite Hr; cbn; auto.
Qed.

Lemma dispatchEnd_quiescent (ws : list Wait.t) (st : AnimationState) :
  Forall (fun w => Wait.resolved w = true) ws ->
  snd (dispatchEnd ws st) = st /\
  Forall (fun w => Wait.resolved w = true) (fst (dispatchEnd ws st)).
Proof.
  induction ws as [|w ws IH]; intros Hall; cbn; [auto|].
  inversion Hall as [|? ? Hw Hws]; subst.
  destruct (resolved_inert w st Hw) as (Hs & _ & Hr & _).
  destruct (handleAnimationEnd w st) as [w' st']. cbn in *. subst st'.
  destruct (IH Hws) as (Hs' & Hall'). destruct (dispatchEnd ws st) as [ws' st''].
  cbn in *. auto.
Qed.

Lemma fireTimer_quiescent (ws : list Wait.t) : forall (i : nat) (st : AnimationState),
  Forall (fun w => Wait.resolved w = true) ws ->
  snd (fireTimer i ws st) = st /\
  Forall (fun w => Wait.resolved w = true) (fst (fireTimer i ws st)).
Proof.
  induction ws as [|w ws IH]; intros i st Hall; cbn; [auto|].
  inversion Hall as [|? ? Hw Hws]; subst. destruct i as [|i].
  - destruct (resolved_inert w st Hw) as (_ & Hs & _ & Hr).
    destruct (timerFires w st) as [w' st']. cbn in *. auto.
  - destruct (IH i st Hws) as (Hs & Hall'). destruct (fireTimer i ws st) as [ws' st'].
    cbn in *. auto.
Qed.

(** Late completions are ignored.  Once no promise is waiting, a native
    end event (from any later transition on the element, or bubbling from a
    child) and any fallback timer still coming due leave the animation state
    and the effects as they are, and no promise becomes unresolved. *)
Theorem late_completions_ignored (m : t) (e : event) :
  quiescent m ->
  isCall e = false ->
  animationState (step m e) = animationState m /\
  effects (step m e) = effects m /\
  quiescent (step m e).
Proof.
  intros Hq He. destruct e; try discriminate; cbn [step]; unfold quiescent in *.
  - destruct (dispatchEnd_quiescent (waits m) (animationState m) Hq) as (Hs & Hall).
    destruct (dispatchEnd (waits m) (animationState m)) as [ws st]. cbn in *. auto.
  - destruct (fireTimer_quiescent (waits m) i (animationState m) Hq) as (Hs & Hall).
    destruct (fireTimer i (waits m) (animationState m)) as [ws st]. cbn in *. auto.
Qed.

Lemma late_completions_witness :
  animationState (step (run (create (Inputs.fade None)) [CallShow; NativeEnd])
                       (TimerFires 0))
  = animationState (run (create (Inputs.fade None)) [CallShow; NativeEnd]).
Proof.
  apply (late_completions_ignored (run (create (Inputs.fade None)) [CallShow; NativeEnd])
           (TimerFires 0)).
  - repeat constructor.
  - reflexivity.
Defined.

(** What a native end event does to promises that are all waiting with
    their listeners on: every continuation runs, in registration order, so
    the state is the one the latest promise sets. *)
Lemma dispatchEnd_all (ws : list Wait.t) : forall (w : Wait.t) (st : AnimationState),
  Forall (fun w => Wait.resolved w = false /\ Wait.listening w = true) (ws ++ [w]) ->
  snd (dispatchEnd (ws ++ [w]) st) = resume (Wait.cont w) /\
  Forall (fun w => Wait.resolved w = true) (fst (dispatchEnd (ws ++ [w]) st)).
Proof.
  induction ws as [|w0 ws IH]; intros w st Hall; cbn [app dispatchEnd].
  - inversion Hall as [|? ? [Hr Hl] _]; subst.
    unfold handleAnimationEnd, resolve. rewrite Hl. cbn. rewrite Hr. cbn.
    split; [reflexivity|]. repeat constructor.
  - inversion Hall as [|? ? [Hr Hl] Hrest]; subst.
    unfold handleAnimationEnd at 1 2, resolve. rewrite Hl. cbn [Wait.resolved].
    rewrite Hr. cbn [Wait.cont Wait.resolved Wait.listening Wait.timerPending Wait.delay].
    destruct (IH w (resume (Wait.cont w0)) Hrest) as (Hs & Hq).
    destruct (dispatchEnd (ws ++ [w]) (resume (Wait.cont w0))) as [ws' st'].
    cbn in *. split; [exact Hs|]. constructor; [reflexivity|exact Hq].
Qed.

(** Calls alone keep every promise waiting. *)
Lemma call_inFlight (m : t) (e : event) :
  isCall e = true -> inFlight m -> inFlight (step m e).
Proof.
  intros He (Hall & Hst). destruct e; try discriminate; cbn [step].
  - destruct Hst as [[Hex Hw]|(ws & w & Hw & Hs)].
    + destruct (AnimationManagerSpec.show_starts m (or_introl Hex)) as (Hst' & Hw').
      split.
      * rewrite Hw'. apply Forall_app. split; [exact Hall|]. repeat constructor.
      * right. eexists _, _. split; [exact Hw'|]. now rewrite Hst'.
    + destruct (Wait.cont w) eqn:Ek; cbn in Hs.
      * rewrite (AnimationManagerSpec.show_noop m (or_introl Hs)).
        split; [exact Hall|]. right. exists ws, w. now rewrite Ek.
      * destruct (AnimationManagerSpec.show_starts m (or_intror Hs)) as (Hst' & Hw').
        split.
        -- rewrite Hw'. apply Forall_app. split; [exact Hall|]. repeat constructor.
        -- right. eexists _, _. split; [exact Hw'|]. now rewrite Hst'.
  - destruct Hst as [[Hex Hw]|(ws & w & Hw & Hs)].
    + rewrite (hide_noop m (or_intror Hex)). split; [exact Hall|]. now left.
    + destruct (Wait.cont w) eqn:Ek; cbn in Hs.
      * destruct (AnimationManagerSpec.hide_starts m (or_intror Hs)) as (Hst' & Hw').
        split.
        -- rewrite Hw'. apply Forall_app. split; [exact Hall|]. repeat constructor.
        -- right. eexists _, _. split; [exact Hw'|]. now rewrite Hst'.
      * rewrite (hide_noop m (or_introl Hs)).
        split; [exact Hall|]. right. exists ws, w. now rewrite Ek.
Qed.

Lemma calls_inFlight (tr : list event) : forall m : t,
  forallb isCall tr = true -> inFlight m -> inFlight (run m tr).
Proof.
  induction tr as [|e tr IH]; intros m Htr Hm; [exact Hm|].
  cbn in Htr. apply andb_prop in Htr as [He Htr].
  apply (IH (step m e) Htr). now apply call_inFlight.
Qed.

(** The latest request wins.  After any sequence of [show] and [hide]
    calls on a new manager, made before any completion arrives, one native
    end event resolves every promise in order and leaves the manager in the
    state the latest effective call was heading for (['entered'] after a
    [show], ['exited'] after a [hide]), with no promise waiting. *)
Theorem latest_request_wins (o : options.t) (tr : list event) :
  forallb isCall tr = true ->
  animationState (step (run (create o) tr) NativeEnd)
    = settle (animationState (run (create o) tr)) /\
  quiescent (step (run (create o) tr) NativeEnd).
Proof.
  intros Htr.
  assert (Hinit : inFlight (create o)) by (split; [constructor|now left]).
  destruct (calls_inFlight tr (create o) Htr Hinit) as (Hall & Hst).
  set (m := run (create o) tr) in *. cbn [step]. unfold quiescent.
  destruct Hst as [[Hex Hw]|(ws & w & Hw & Hs)].
  - rewrite Hw, Hex. cbn. split; [reflexivity|constructor].
  - rewrite Hw in Hall. destruct (dispatchEnd_all ws w (animationState m) Hall) as (H1 & H2).
    rewrite Hw. destruct (dispatchEnd (ws ++ [w]) (animationState m)) as [ws' st'].
    cbn in *. split; [|exact H2]. rewrite H1, Hs. now destruct (Wait.cont w).
Qed.

Lemma latest_request_witness :
  animationState (step (run (create (Inputs.fade None)) [CallShow; CallHide; CallShow; CallHide])
                       NativeEnd)
  = settle (animationState (run (create (Inputs.fade None))
                                [CallShow; CallHide; CallShow; CallHide])).
Proof.
  apply (latest_request_wins (Inputs.fade None) [CallShow; CallHide; CallShow; CallHide]).
  reflexivity.
Defined.

End AnimationManagerFacts.

(** ** The draft position engine: termination, offset and clamp *)

Module PositionEngineFacts.
Import PositionEngine.

(** For an explicit placement one level of call depth is enough, and more
    changes nothing. *)
Lemma initial_explicit (fuel : nat) (o : options.t) (d : Dom.t)
    (targetRect popupRect : DOMRect.t) :
  explicit (options.placement o) = true ->
  calculateInitialPosition (S fuel) o d targetRect popupRect
    = calculateInitialPosition 1 o d targetRect popupRect /\
  exists r, calculateInitialPosition 1 o d targetRect popupRect = Some r /\
            Position.placement r = options.placement o /\
            Position.adjusted r = None.
Proof.
  intros He. cbn [calculateInitialPosition].
  destruct (options.placement o) as [[]|]; try discriminate He;
    (split; [reflexivity|eexists; split; [reflexivity|split; reflexivity]]).
Qed.

(** The engine returns a position exactly for the five explicit
    placements [top], [bottom], [left], [right] and [center], at any call
    depth from one on and with the same result; for [auto] and for an absent
    placement it returns at no call depth. *)
Theorem engine_returns_iff_explicit (fuel : nat) (o : options.t) (d : Dom.t) :
  (explicit (options.placement o) = true ->
   calculatePosition (S fuel) o d = calculatePosition 1 o d /\
   exists r, calculatePosition 1 o d = Some r) /\
  (options.placement o = Some Placement.auto \/ options.placement o = None ->
   calculatePosition fuel o d = None).
Proof.
  split.
  - intros He. unfold calculatePosition.
    destruct (initial_explicit fuel o d (getTargetRect o d) (getPopupRect d) He)
      as (Hf & r & Hr & _).
    rewrite Hf, Hr. split; [reflexivity|eauto].
  - intros Hp. unfold calculatePosition.
    now rewrite (PositionEngineSpec.auto_never_returns fuel o d _ _ Hp).
Qed.

Lemma engine_returns_witness :
  calculatePosition 5 Inputs.scenarioOptions Inputs.scenarioDom
  = calculatePosition 1 Inputs.scenarioOptions Inputs.scenarioDom.
Proof.
  apply (engine_returns_iff_explicit 4 Inputs.scenarioOptions Inputs.scenarioDom).
  reflexivity.
Defined.

(** The offset is counted twice.  With autoAdjust and flip off, the
    position for an explicit placement is the position without offset plus
    twice the offset: once in [calculateInitialPosition], once more in
    [applyOffset]. *)
Theorem offset_counted_twice (o : options.t) (d : Dom.t) :
  explicit (options.placement o) = true ->
  JS.truthy (options.autoAdjust o) = false ->
  JS.truthy (options.flip o) = false ->
  exists r r0,
    calculatePosition 1 o d = Some r /\
    calculatePosition 1 (noOffset o) d = Some r0 /\
    Position.x r == Position.x r0 + 2 * fst (offsetOf o) /\
    Position.y r == Position.y r0 + 2 * snd (offsetOf o).
Proof.
  intros He Ha Hf. unfold calculatePosition, noOffset, offsetOf, getTargetRect.
  cbn [options.target options.placement options.offset options.autoAdjust options.flip
       calculateInitialPosition].
  rewrite Ha, Hf.
  destruct (options.placement o) as [[]|]; try discriminate He;
    eexists _, _; (split; [reflexivity|split; [reflexivity|]]);
    unfold applyOffset; cbn [Position.x Position.y options.offset fst snd];
    split; qhalf; ring.
Qed.

Lemma offset_counted_twice_witness :
  exists r r0,
    calculatePosition 1 Inputs.besideLink Inputs.desktopDom = Some r /\
    calculatePosition 1 (noOffset Inputs.besideLink) Inputs.desktopDom = Some r0 /\
    Position.x r == Position.x r0 + 2 * fst (offsetOf Inputs.besideLink) /\
    Position.y r == Position.y r0 + 2 * snd (offsetOf Inputs.besideLink).
Proof.
  apply (offset_counted_twice Inputs.besideLink Inputs.desktopDom); reflexivity.
Defined.

(** [adjustForBoundaries] when the popup and the distance of 10 fit in
    the viewport: the position it returns keeps the popup inside the
    viewport, keeps the label, and its adjusted flag is true exactly when a
    coordinate was changed. *)
Theorem adjustForBoundaries_within (position : Position.t) (viewport : Viewport.t)
    (popupRect : DOMRect.t) :
  DOMRect.width popupRect + 10 <= Viewport.width viewport ->
  DOMRect.height popupRect + 10 <= Viewport.height viewport ->
  0 <= Position.x (adjustForBoundaries position viewport popupRect) /\
  Position.x (adjustForBoundaries position viewport popupRect) + DOMRect.width popupRect
    <= Viewport.width viewport /\
  0 <= Position.y (adjustForBoundaries position viewport popupRect) /\
  Position.y (adjustForBoundaries position viewport popupRect) + DOMRect.height popupRect
    <= Viewport.height viewport /\
  Position.placement (adjustForBoundaries position viewport popupRect)
    = Position.placement position /\
  (Position.adjusted (adjustForBoundaries position viewport popupRect) = Some false ->
   Position.x (adjustForBoundaries position viewport popupRect) = Position.x position /\
   Position.y (adjustForBoundaries position viewport popupRect) = Position.y position) /\
  (Position.adjusted (adjustForBoundaries position viewport popupRect) = Some true ->
   ~ (Position.x (adjustForBoundaries position viewport popupRect) == Position.x position /\
      Position.y (adjustForBoundaries position viewport popupRect) == Position.y position)).
Proof.
  intros Hw Hh. unfold adjustForBoundaries. cbv zeta.
  js_cases; cbn [Position.x Position.y Position.placement Position.adjusted];
    repeat split; try lra; try discriminate; intros ? [? ?]; lra.
Qed.

Lemma adjustForBoundaries_witness :
  0 <= Position.x (adjustForBoundaries
                     {| Position.x := -30; Position.y := 700;
                        Position.placement := Some Placement.left;
                        Position.adjusted := None |}
                     (getViewport Inputs.desktopDom) (getPopupRect Inputs.desktopDom)).
Proof.
  destruct (adjustForBoundaries_within
              {| Position.x := -30; Position.y := 700;
                 Position.placement := Some Placement.left; Position.adjusted := None |}
              (getViewport Inputs.desktopDom) (getPopupRect Inputs.desktopDom))
    as (Hx & _).
  - vm_compute. discriminate.
  - vm_compute. discriminate.
  - exact Hx.
Defined.

(** After the clamp there is nothing left to flip: when the popup and the
    distance of 10 fit in the viewport, [handleFlip] returns a clamped
    position as it is, whatever the placement and the anchor. *)
Theorem flip_dead_after_clamp (position : Position.t) (targetRect popupRect : DOMRect.t)
    (viewport : Viewport.t) :
  DOMRect.width popupRect + 10 <= Viewport.width viewport ->
  DOMRect.height popupRect + 10 <= Viewport.height viewport ->
  handleFlip (adjustForBoundaries position viewport popupRect) targetRect popupRect viewport
  = adjustForBoundaries position viewport popupRect.
Proof.
  intros Hw Hh.
  destruct (adjustForBoundaries_within position viewport popupRect Hw Hh)
    as (Hx0 & Hx1 & Hy0 & Hy1 & _).
  set (r := adjustForBoundaries position viewport popupRect) in *.
  unfold handleFlip.
  destruct (JSFacts.lt_spec (Position.x r) 0); [lra|].
  destruct (JSFacts.gt_spec (Position.x r + DOMRect.width popupRect) (Viewport.width viewport));
    [lra|].
  rewrite !andb_false_r.
  destruct (JSFacts.lt_spec (Position.y r) 0); [lra|].
  destruct (JSFacts.gt_spec (Position.y r + DOMRect.height popupRect)
              (Viewport.height viewport)); [lra|].
  now rewrite !andb_false_r.
Qed.

Lemma flip_dead_witness :
  handleFlip
    (adjustForBoundaries
       {| Position.x := 350; Position.y := -100;
          Position.placement := Some Placement.top; Position.adjusted := None |}
       (getViewport Inputs.desktopDom) (getPopupRect Inputs.desktopDom))
    Inputs.linkNearTop (getPopupRect Inputs.desktopDom) (getViewport Inputs.desktopDom)
  = adjustForBoundaries
      {| Position.x := 350; Position.y := -100;
         Position.placement := Some Placement.top; Position.adjusted := None |}
      (getViewport Inputs.desktopDom) (getPopupRect Inputs.desktopDom).
Proof.
  apply (flip_dead_after_clamp
           {| Position.x := 350; Position.y := -100;
              Position.placement := Some Placement.top; Position.adjusted := None |}
           Inputs.linkNearTop (getPopupRect Inputs.desktopDom)
           (getViewport Inputs.desktopDom)).
  - vm_compute. discriminate.
  - vm_compute. discriminate.
Defined.

(** The engine with autoAdjust on, for an explicit placement and a popup
    that fits with the distance of 10: the result keeps the requested label
    (no flip, even with flip on), and it is the clamped position shifted by
    the offset, so the popup lies inside the viewport moved by the offset;
    with no offset it lies inside the viewport. *)
Theorem engine_clamps_then_shifts (o : options.t) (d : Dom.t) :
  explicit (options.placement o) = true ->
  JS.truthy (options.autoAdjust o) = true ->
  DOMRect.width (Dom.popupRect d) + 10 <= window.innerWidth (Dom.win d) ->
  DOMRect.height (Dom.popupRect d) + 10 <= window.innerHeight (Dom.win d) ->
  exists r,
    calculatePosition 1 o d = Some r /\
    Position.placement r = options.placement o /\
    0 <= Position.x r - fst (offsetOf o) /\
    Position.x r - fst (offsetOf o) + DOMRect.width (Dom.popupRect d)
      <= window.innerWidth (Dom.win d) /\
    0 <= Position.y r - snd (offsetOf o) /\
    Position.y r - snd (offsetOf o) + DOMRect.height (Dom.popupRect d)
      <= window.innerHeight (Dom.win d).
Proof.
  intros He Ha Hw Hh. unfold calculatePosition.
  destruct (initial_explicit 0 o d (getTargetRect o d) (getPopupRect d) He)
    as (_ & r0 & Hr0 & Hl0 & _).
  rewrite Hr0, Ha.
  assert (Hflip : (if JS.truthy (options.flip o)
                   then handleFlip (adjustForBoundaries r0 (getViewport d) (getPopupRect d))
                          (getTargetRect o d) (getPopupRect d) (getViewport d)
                   else adjustForBoundaries r0 (getViewport d) (getPopupRect d))
                  = adjustForBoundaries r0 (getViewport d) (getPopupRect d)).
  { destruct (JS.truthy (options.flip o)); [|reflexivity].
    now apply flip_dead_after_clamp. }
  rewrite Hflip.
  destruct (adjustForBoundaries_within r0 (getViewport d) (getPopupRect d) Hw Hh)
    as (Hx0 & Hx1 & Hy0 & Hy1 & Hl & _).
  eexists. split; [reflexivity|].
  unfold applyOffset, offsetOf. cbn [Position.x Position.y Position.placement].
  unfold getViewport, getPopupRect in *. cbn [Viewport.width Viewport.height] in *.
  rewrite Hl, Hl0. repeat split; lra.
Qed.

Lemma engine_clamps_witness :
  exists r,
    calculatePosition 1 (Inputs.aboveLink true) Inputs.desktopDom = Some r /\
    Position.placement r = Some Placement.top /\
    0 <= Position.y r - snd (offsetOf (Inputs.aboveLink true)).
Proof.
  destruct (engine_clamps_then_shifts (Inputs.aboveLink true) Inputs.desktopDom)
    as (r & Hr & Hl & _ & _ & Hy & _).
  - reflexivity.
  - reflexivity.
  - vm_compute. discriminate.
  - vm_compute. discriminate.
  - exists r. auto.
Defined.

End PositionEngineFacts.

(** ** The interaction manager: what cleanup removes *)

Module InteractionManagerFacts.
Import InteractionManager.

Lemma removeFromDocument_In (ev : string) (closure : nat) (regs : list Listener.t)
    (l : Listener.t) :
  In l (removeFromDocument ev closure regs) <->
  In l regs /\
  ~ (Listener.on l = Document /\ Listener.event l = ev /\ Listener.id l = closure).
Proof.
  unfold removeFromDocument. rewrite List.filter_In. split.
  - intros [Hin Hb]. split; [exact Hin|]. intros (Ho & He & Hi).
    rewrite Ho, He, Hi, String.eqb_refl, Nat.eqb_refl in Hb. discriminate.
  - intros [Hin Hn]. split; [exact Hin|].
    destruct (Listener.on l) eqn:Ho; [|reflexivity].
    destruct (String.eqb (Listener.event l) ev) eqn:He; [|reflexivity].
    destruct (Nat.eqb (Listener.id l) closure) eqn:Hi; [|reflexivity].
    exfalso. apply Hn. apply String.eqb_eq in He. apply Nat.eqb_eq in Hi. auto.
Qed.

Lemma fold_remove_In (entries : list (string * nat)) (regs : list Listener.t)
    (l : Listener.t) :
  In l (fold_right (fun entry regs => removeFromDocument (fst entry) (snd entry) regs)
                   regs entries) <->
  In l regs /\
  ~ (Listener.on l = Document /\ In (Listener.event l, Listener.id l) entries).
Proof.
  induction entries as [|[ev c] entries IH]; cbn [fold_right fst snd].
  - split; [intros H; split; [exact H|intros [_ []]]|intros [H _]; exact H].
  - rewrite removeFromDocument_In, IH. split.
    + intros [[Hin Hn] Hn']. split; [exact Hin|]. intros [Ho [He|He]].
      * injection He as He Hi. apply Hn'. auto.
      * apply Hn. auto.
    + intros [Hin Hn]. split; [split; [exact Hin|]|].
      * intros [Ho He]. apply Hn. split; [exact Ho|now right].
      * intros (Ho & He & Hi). apply Hn. split; [exact Ho|]. left. now rewrite He, Hi.
Qed.

(** [cleanup] removes from the registry exactly the [document] listeners
    its map records, and nothing else: a listener on [window], and a
    [document] listener whose map entry was overwritten by a later one, stay
    registered.  The map is empty afterwards, so a second [cleanup] changes
    nothing. *)
Theorem cleanup_removes_recorded (m : t) :
  (forall l, In l (registered (cleanup m)) <->
             In l (registered m) /\
             ~ (Listener.on l = Document /\
                eventListeners m !! Listener.event l = Some (Listener.id l))) /\
  eventListeners (cleanup m) = ∅ /\
  cleanup (cleanup m) = cleanup m.
Proof.
  split; [|split].
  - intros l. unfold cleanup. cbn [registered]. rewrite fold_remove_In.
    assert (Hentry : In (Listener.event l, Listener.id l) (map_to_list (eventListeners m)) <->
                     eventListeners m !! Listener.event l = Some (Listener.id l)).
    { rewrite <- list_elem_of_In. apply elem_of_map_to_list. }
    rewrite Hentry. reflexivity.
  - reflexivity.
  - unfold cleanup at 1. cbn [eventListeners registered opts nextId closes cleanup].
    now rewrite map_to_list_empty.
Qed.

Lemma listen_registered (tgt : target) (ev : string) (h : handler) (m : t) (l : Listener.t) :
  In l (registered m) -> In l (registered (listen tgt ev h m)).
Proof. intros H. cbn. apply List.in_or_app. now left. Qed.

(** No operation removes a listener from [window]. *)
Lemma step_keeps_window (m : t) (o : op) (l : Listener.t) :
  Listener.on l = Window -> In l (registered m) -> In l (registered (step m o)).
Proof.
  intros Hw Hin. destruct o; cbn [step].
  - unfold setupOutsideClick. destruct (negb _); [exact Hin|now apply listen_registered].
  - unfold setupEscapeKey. destruct (negb _); [exact Hin|now apply listen_registered].
  - unfold setupScrollEvents. destruct (negb _); [exact Hin|now apply listen_registered].
  - apply (proj1 (cleanup_removes_recorded m)). split; [exact Hin|].
    intros [Ho _]. congruence.
  - exact Hin.
Qed.

Lemma run_keeps_window (ops : list op) : forall (m : t) (l : Listener.t),
  Listener.on l = Window -> In l (registered m) -> In l (registered (run m ops)).
Proof.
  induction ops as [|o ops IH]; intros m l Hw Hin; [exact Hin|].
  apply (IH (step m o) l Hw). now apply step_keeps_window.
Qed.

Lemma dispatch_counts (m : t) (e : domEvent) (l : Listener.t) :
  In l (registered m) -> delivered l e = true -> closesOn (Listener.handler l) e = true ->
  (closes m < closes (dispatch e m))%nat.
Proof.
  intros Hin Hd Hc. cbn [dispatch closes].
  assert (Hf : In l (List.filter
                       (fun l => delivered l e && closesOn (Listener.handler l) e)
                       (registered m))).
  { apply List.filter_In. split; [exact Hin|]. now rewrite Hd, Hc. }
  destruct (List.filter _ (registered m)); [destruct Hf|]. cbn. lia.
Qed.

(** The scroll listener leaks.  With closeOnScroll on, the listener that
    [setupScrollEvents] puts on [window] survives [cleanup] (which removes
    from [document] only) and every later operation, while the map no longer
    knows it: after the cleanup a scroll of the page still calls
    [onClose]. *)
Theorem scroll_listener_leaks (m : t) (ops : list op) :
  JS.truthy (options.closeOnScroll (opts m)) = true ->
  eventListeners (run m [SetupScrollEvents; Cleanup]) = ∅ /\
  In {| Listener.on := Window; Listener.event := "scroll"; Listener.id := nextId m;
        Listener.handler := HandleScroll |}
     (registered (run m ([SetupScrollEvents; Cleanup] ++ ops))) /\
  (closes (run m ([SetupScrollEvents; Cleanup] ++ ops))
   < closes (dispatch Scroll (run m ([SetupScrollEvents; Cleanup] ++ ops))))%nat.
Proof.
  intros Ht.
  set (l := {| Listener.on := Window; Listener.event := "scroll"; Listener.id := nextId m;
               Listener.handler := HandleScroll |}).
  assert (Hin : In l (registered (run m ([SetupScrollEvents; Cleanup] ++ ops)))).
  { unfold run. rewrite fold_left_app. apply run_keeps_window; [reflexivity|].
    cbn [fold_left]. apply step_keeps_window; [reflexivity|].
    cbn [step]. unfold setupScrollEvents. rewrite Ht. cbn [negb].
    cbn. apply List.in_or_app. right. now left. }
  split; [reflexivity|]. split; [exact Hin|].
  now apply (dispatch_counts _ Scroll l).
Qed.

Lemma scroll_listener_witness :
  (closes (run (create {| options.closeOnOutsideClick := Some true;
                          options.closeOnEscape := Some true;
                          options.closeOnScroll := Some true |})
               ([SetupScrollEvents; Cleanup] ++ [SetupOutsideClick; Cleanup]))
   < closes (dispatch Scroll
               (run (create {| options.closeOnOutsideClick := Some true;
                               options.closeOnEscape := Some true;
                               options.closeOnScroll := Some true |})
                    ([SetupScrollEvents; Cleanup] ++ [SetupOutsideClick; Cleanup]))))%nat.
Proof.
  apply (scroll_listener_leaks
           (create {| options.closeOnOutsideClick := Some true;
                      options.closeOnEscape := Some true;
                      options.closeOnScroll := Some true |})
           [SetupOutsideClick; Cleanup]).
  reflexivity.
Defined.

(** Setting up twice leaks as well.  With closeOnOutsideClick on, a second
    [setupOutsideClick] overwrites the map entry of the first, so [cleanup]
    removes the second listener only: the first stays on [document], and a
    click outside the popup still calls [onClose] after the cleanup. *)
Theorem double_setup_leaks (m : t) :
  JS.truthy (options.closeOnOutsideClick (opts m)) = true ->
  In {| Listener.on := Document; Listener.event := "click"; Listener.id := nextId m;
        Listener.handler := HandleClick |}
     (registered (run m [SetupOutsideClick; SetupOutsideClick; Cleanup])) /\
  ~ In {| Listener.on := Document; Listener.event := "click"; Listener.id := S (nextId m);
          Listener.handler := HandleClick |}
       (registered (run m [SetupOutsideClick; SetupOutsideClick; Cleanup])) /\
  (closes (run m [SetupOutsideClick; SetupOutsideClick; Cleanup])
   < closes (dispatch (Click false)
               (run m [SetupOutsideClick; SetupOutsideClick; Cleanup])))%nat.
Proof.
  intros Ht.
  assert (Hon : forall m', opts m' = opts m ->
                  setupOutsideClick m' = listen Document "click" HandleClick m').
  { intros m' Ho. unfold setupOutsideClick. now rewrite Ho, Ht. }
  cbn [run fold_left step].
  rewrite (Hon m eq_refl), (Hon (listen Document "click" HandleClick m) eq_refl).
  set (m2 := listen Document "click" HandleClick (listen Document "click" HandleClick m)).
  assert (Hmap : eventListeners m2 !! "click"%string = Some (S (nextId m))).
  { cbn. apply lookup_insert_eq. }
  assert (H1 : In {| Listener.on := Document; Listener.event := "click";
                     Listener.id := nextId m; Listener.handler := HandleClick |}
                  (registered (cleanup m2))).
  { apply (proj1 (cleanup_removes_recorded m2)). split.
    - cbn. apply List.in_or_app. left. apply List.in_or_app. right. now left.
    - cbn [Listener.on Listener.event Listener.id]. rewrite Hmap. intros [_ H].
      injection H as H. lia. }
  split; [exact H1|]. split.
  - intros H. apply (proj1 (cleanup_removes_recorded m2)) in H as [_ Hn].
    apply Hn. cbn [Listener.on Listener.event Listener.id]. auto.
  - now apply (dispatch_counts _ (Click false) _ H1).
Qed.

Lemma double_setup_witness :
  In {| Listener.on := Document; Listener.event := "click"; Listener.id := O;
        Listener.handler := HandleClick |}
     (registered (run (create {| options.closeOnOutsideClick := Some true;
                                 options.closeOnEscape := None;
                                 options.closeOnScroll := None |})
                      [SetupOutsideClick; SetupOutsideClick; Cleanup])).
Proof.
  destruct (double_setup_leaks
              (create {| options.closeOnOutsideClick := Some true;
                         options.closeOnEscape := None;
                         options.closeOnScroll := None |}) eq_refl) as (H & _).
  exact H.
Defined.

(** The focus trap.  [handleTabKey] never throws, not even with no
    focusable element; it only reacts to Tab, and when it moves the focus it
    moves it to an element of the list: to the first from the last on Tab, to
    the last from the first on Shift+Tab.  Everywhere else, and whenever the
    focus is on no element of the list, the key is left to the browser. *)
Theorem focus_trap_wraps (focusableElements : list nat) (activeElement : option nat)
    (event : KeyboardEvent.t) :
  handleTabKey focusableElements activeElement event <> Throws /\
  (forall el, handleTabKey focusableElements activeElement event = Focused el ->
     KeyboardEvent.key event = "Tab"%string /\ In el focusableElements /\
     (if KeyboardEvent.shiftKey event
      then activeElement = head focusableElements /\ last focusableElements = Some el
      else activeElement = last focusableElements /\ head focusableElements = Some el)) /\
  (KeyboardEvent.key event = "Tab"%string -> is_Some activeElement ->
     (KeyboardEvent.shiftKey event = false -> activeElement = last focusableElements ->
      exists el, head focusableElements = Some el /\
                 handleTabKey focusableElements activeElement event = Focused el) /\
     (KeyboardEvent.shiftKey event = true -> activeElement = head focusableElements ->
      exists el, last focusableElements = Some el /\
                 handleTabKey focusableElements activeElement event = Focused el)).
Proof.
  assert (Hsame : forall a b, sameElement a b = true -> a = b /\ is_Some a).
  { intros [a|] [b|] H; try discriminate. apply Nat.eqb_eq in H. subst. eauto. }
  assert (Hrefl : forall a, is_Some a -> sameElement a a = true).
  { intros a [x ->]. cbn. apply Nat.eqb_refl. }
  assert (Hends : forall els : list nat, head els = None <-> last els = None).
  { intros els. rewrite head_None, last_None. reflexivity. }
  assert (Hin : forall (els : list nat) el, head els = Some el \/ last els = Some el
                           -> In el els).
  { intros els el [H|H]; apply list_elem_of_In.
    - apply head_Some_elem_of. exact H.
    - apply last_Some_elem_of. exact H. }
  unfold handleTabKey. destruct (String.eqb (KeyboardEvent.key event) "Tab") eqn:Ek; cbn [negb].
  - apply String.eqb_eq in Ek.
    destruct (KeyboardEvent.shiftKey event) eqn:Es.
    + destruct (sameElement activeElement (head focusableElements)) eqn:E1.
      * destruct (Hsame _ _ E1) as [Heq [x Hx]].
        destruct (last focusableElements) as [el|] eqn:El.
        -- split; [discriminate|]. split.
           ++ intros el' H. injection H as <-. repeat split; auto.
           ++ intros _ _. split; [discriminate|]. intros _ _. eauto.
        -- exfalso. apply Hends in El. congruence.
      * split; [discriminate|]. split; [discriminate|].
        intros _ Hs. split; [discriminate|]. intros _ Heq. rewrite <- Heq in E1.
        rewrite (Hrefl _ Hs) in E1. discriminate.
    + destruct (sameElement activeElement (last focusableElements)) eqn:E1.
      * destruct (Hsame _ _ E1) as [Heq [x Hx]].
        destruct (head focusableElements) as [el|] eqn:El.
        -- split; [discriminate|]. split.
           ++ intros el' H. injection H as <-. repeat split; auto.
           ++ intros _ _. split; [|discriminate]. intros _ _. eauto.
        -- exfalso. apply Hends in El. congruence.
      * split; [discriminate|]. split; [discriminate|].
        intros _ Hs. split; [|discriminate]. intros _ Heq. rewrite <- Heq in E1.
        rewrite (Hrefl _ Hs) in E1. discriminate.
  - split; [discriminate|]. split; [discriminate|].
    intros Hk. rewrite Hk in Ek. discriminate.
Qed.

Lemma focus_trap_witness :
  exists el, head [4; 7; 9]%nat = Some el /\
             handleTabKey [4; 7; 9]%nat (Some 9%nat)
               {| KeyboardEvent.key := "Tab"; KeyboardEvent.shiftKey := false |}
             = Focused el.
Proof.
  destruct (focus_trap_wraps [4; 7; 9]%nat (Some 9%nat)
              {| KeyboardEvent.key := "Tab"; KeyboardEvent.shiftKey := false |})
    as (_ & _ & Hwrap).
  destruct (Hwrap eq_refl (ex_intro _ 9%nat eq_refl)) as (Htab & _).
  exact (Htab eq_refl eq_refl).
Defined.

End InteractionManagerFacts.
